(** * Row scoring and best-match selection of the Service Fusion address search

    A shallow embedding of the decision logic of [src/main.js]:
    [norm], [parseAddress], [scoreRow] and the score-sort-pick step of the
    main loop, together with the JavaScript string primitives they call.

    Modelling conventions.
    - A JavaScript string is a [string]; a character is one code unit in the
      Latin-1 range (0..255), which is closed under [toLowerCase] and contains
      the white space characters TAB, LF, VT, FF, CR, SPACE and NBSP.
    - A value that may be [undefined] or [null] (an absent hint, a missing cell)
      is an [option string], [None] standing for both.
    - Scores are JavaScript numbers holding small integers, modelled in [Z].
    - The [breakdown] object is a finite map from property names to numbers. *)

From Stdlib Require Import ZArith Ascii String Lia Sorted.
From stdpp Require Import gmap strings list fin_maps.

Local Open Scope Z_scope.

(** ** JavaScript primitives *)

Module JS.

(** [\s] of a regular expression, and the characters [trim] strips:
    WhiteSpace and LineTerminator code units below 256. *)
Definition is_space (c : ascii) : bool :=
  match c with
  | "009" | "010" | "011" | "012" | "013" | " " | "160" => true
  | _ => false
  end%char.

(** LineTerminator: the characters [.] does not match (no [s] flag). *)
Definition is_line_terminator (c : ascii) : bool :=
  match c with
  | "010" | "013" => true
  | _ => false
  end%char.

(** [\d] is [0-9]. *)
Definition is_digit (c : ascii) : bool :=
  let n := N_of_ascii c in ((48 <=? n) && (n <=? 57))%N.

(** Lower-case mapping of one code unit: A-Z, and the Latin-1 capitals
    U+00C0..U+00DE except the multiplication sign U+00D7. *)
Definition lower_char (c : ascii) : ascii :=
  let n := N_of_ascii c in
  if ((65 <=? n) && (n <=? 90))%N then ascii_of_N (n + 32)
  else if ((192 <=? n) && (n <=? 222) && negb (n =? 215))%N
       then ascii_of_N (n + 32)
  else c.

(** [s.toLowerCase()] *)
Fixpoint toLowerCase (s : string) : string :=
  match s with
  | EmptyString => EmptyString
  | String c s' => String (lower_char c) (toLowerCase s')
  end.

(** [s.replace(/\s+/g, ' ')]: every maximal run of white space becomes one
    space.  [in_run] tells that the previous character was white space, so
    that the current run has already been replaced. *)
Fixpoint replace_spaces_from (in_run : bool) (s : string) : string :=
  match s with
  | EmptyString => EmptyString
  | String c s' =>
      if is_space c
      then if in_run then replace_spaces_from true s'
           else String " " (replace_spaces_from true s')
      else String c (replace_spaces_from false s')
  end.

Definition replace_spaces (s : string) : string :=
  replace_spaces_from false s.

(** [s.trimStart()], [s.trimEnd()] and [s.trim()] *)
Fixpoint trimStart (s : string) : string :=
  match s with
  | EmptyString => EmptyString
  | String c s' => if is_space c then trimStart s' else s
  end.

Fixpoint trimEnd (s : string) : string :=
  match s with
  | EmptyString => EmptyString
  | String c s' =>
      match trimEnd s' with
      | EmptyString => if is_space c then EmptyString else String c EmptyString
      | r => String c r
      end
  end.

Definition trim (s : string) : string := trimEnd (trimStart s).

(** [p] is a prefix of [s]. *)
Fixpoint startsWith (s p : string) : bool :=
  match p, s with
  | EmptyString, _ => true
  | String _ _, EmptyString => false
  | String a p', String b s' => if ascii_dec a b then startsWith s' p' else false
  end.

(** [s.includes(p)]: [p] occurs in [s] at some position. *)
Fixpoint includes (s p : string) : bool :=
  startsWith s p ||
  match s with
  | EmptyString => false
  | String _ s' => includes s' p
  end.

(** [s.split(' ')]: the pieces between single spaces; never empty. *)
Fixpoint split_space (s : string) : list string :=
  match s with
  | EmptyString => [EmptyString]
  | String c s' =>
      if ascii_dec c " "%char then EmptyString :: split_space s'
      else match split_space s' with
           | w :: ws => String c w :: ws
           | [] => [String c EmptyString]
           end
  end.

(** Truthiness of a string: non-empty. *)
Definition truthy_str (s : string) : bool :=
  match s with EmptyString => false | String _ _ => true end.

(** Truthiness of a string that may be [undefined]/[null]. *)
Definition truthy (v : option string) : bool :=
  match v with Some s => truthy_str s | None => false end.

(** [v || ''] *)
Definition or_empty (v : option string) : string :=
  match v with
  | Some s => if truthy_str s then s else EmptyString
  | None => EmptyString
  end.

(** [arr.filter(Boolean)] on an array of strings *)
Definition filter_Boolean (l : list string) : list string :=
  List.filter truthy_str l.

(** The longest prefix of characters satisfying [p], and the rest. *)
Fixpoint span (p : ascii → bool) (s : string) : string * string :=
  match s with
  | EmptyString => (EmptyString, EmptyString)
  | String c s' =>
      if p c then let '(u, v) := span p s' in (String c u, v)
      else (EmptyString, s)
  end.

Fixpoint all_chars (p : ascii → bool) (s : string) : bool :=
  match s with
  | EmptyString => true
  | String c s' => p c && all_chars p s'
  end.

(** [a.match(re)] for the pattern of [parseAddress]: start of input, a
    captured [\d+], then [\s+], then a captured run of [.] up to the end of
    the input; the result is the two captures.  [\d+] can only take the whole
    leading digit run, because [\s] matches no digit.  [\s+] is greedy and
    takes the whole white space run after it; giving characters back only
    lengthens what the second capture has to cover, and [.] matches anything
    but a line terminator, so the match succeeds exactly when the text after
    the white space run holds no line terminator. *)
Definition match_house_rest (a : string) : option (string * string) :=
  let '(digits, r1) := span is_digit a in
  let '(spaces, rest) := span is_space r1 in
  if truthy_str digits && truthy_str spaces
     && all_chars (λ c, negb (is_line_terminator c)) rest
  then Some (digits, rest)
  else None.

(** Stable sort under a comparator, as [Array.prototype.sort] is specified
    (stable since ES2019): insertion from the right, an element moving past
    exactly those it must strictly follow. *)
Section Sort.
Context {A : Type} (cmp : A → A → Z).

Fixpoint insert_sorted (x : A) (l : list A) : list A :=
  match l with
  | [] => [x]
  | y :: l' => if cmp x y <=? 0 then x :: l else y :: insert_sorted x l'
  end.

Fixpoint sort (l : list A) : list A :=
  match l with
  | [] => []
  | x :: l' => insert_sorted x (sort l')
  end.

End Sort.

End JS.

(** ** The program *)

(** [const norm = (s) => (s || '').toLowerCase().replace(/\s+/g, ' ').trim()] *)
Definition norm (s : option string) : string :=
  JS.trim (JS.replace_spaces (JS.toLowerCase (JS.or_empty s))).

Record ParsedAddress := {
  house : string;
  street : string;
  tokens : list string;
}.

(** [function parseAddress(address)] *)
Definition parseAddress (address : option string) : ParsedAddress :=
  let a := JS.trim (JS.or_empty address) in
  let m := JS.match_house_rest a in
  {| house := match m with Some (h, _) => h | None => EmptyString end;
     street := match m with Some (_, r) => r | None => a end;
     tokens := JS.filter_Boolean (JS.split_space (norm (Some a))) |}.

(** The [cells] object built for each table row. *)
Record Cells := {
  name : option string;
  email : option string;
  phone : option string;
  serviceLocation : option string;
  city : option string;
  zip : option string;
  href : option string;
}.

(** What [scoreRow] returns: [{ score, breakdown }]. *)
Record Score := {
  score : Z;
  breakdown : gmap string Z;
}.

(** [score += v; breakdown.k = v;] *)
Definition award (k : string) (v : Z) (st : Score) : Score :=
  {| score := score st + v; breakdown := <[k := v]> (breakdown st) |}.

(** [tok && (textLoc.includes(tok) || text.includes(tok))] *)
Definition token_hits (text textLoc tok : string) : bool :=
  JS.truthy_str tok && (JS.includes textLoc tok || JS.includes text tok).

(** The [for (const tok of parsed.tokens)] loop counting [streetHits]. *)
Definition count_streetHits (text textLoc : string) (toks : list string) : Z :=
  fold_left (λ streetHits tok,
               if token_hits text textLoc tok then streetHits + 1 else streetHits)
            toks 0.

(** [cells.email && cells.email.trim()], as a condition. *)
Definition present (v : option string) : bool :=
  match v with
  | Some s => if JS.truthy_str s then JS.truthy_str (JS.trim s) else false
  | None => false
  end.

(** [function scoreRow(cells, rowText, parsed, cityHint, zipHint)] *)
Definition scoreRow (cells : Cells) (rowText : option string)
    (parsed : ParsedAddress) (cityHint zipHint : option string) : Score :=
  let text := norm rowText in
  let loc := JS.or_empty (serviceLocation cells) in
  let textLoc := norm (Some loc) in
  let st := {| score := 0; breakdown := ∅ |} in
  let st :=
    if JS.truthy_str (house parsed)
       && (JS.includes textLoc (house parsed) || JS.includes text (house parsed))
    then award "house" 50 st else st in
  let st :=
    if JS.truthy zipHint then
      let z := norm zipHint in
      if JS.includes text z then award "zip" 40 st else st
    else st in
  let st :=
    if JS.truthy cityHint then
      let c := norm cityHint in
      if JS.includes text c || JS.includes textLoc c then award "city" 20 st else st
    else st in
  let streetHits := count_streetHits text textLoc (tokens parsed) in
  let streetPts := streetHits * 5 in
  let st := award "streetTokens" streetPts st in
  let st := if present (email cells) then award "email" 3 st else st in
  let st := if present (phone cells) then award "phone" 3 st else st in
  st.

(** One element of [rowsData]. *)
Record Row := {
  text : option string;
  cells : Cells;
}.

(** One element of [scored]: [{ ...r, score, breakdown }]. *)
Record ScoredRow := {
  row : Row;
  result : Score;
}.

(** [(a, b) => b.score - a.score] *)
Definition by_score_desc (a b : ScoredRow) : Z :=
  score (result b) - score (result a).

(** [r => { const { score, breakdown } = scoreRow(r.cells, r.text, parsed, city, zip);
            return { ...r, score, breakdown }; }] *)
Definition score_one (parsed : ParsedAddress) (city zip : option string)
    (r : Row) : ScoredRow :=
  {| row := r; result := scoreRow (cells r) (text r) parsed city zip |}.

(** [const scored = rowsData.map(...).sort((a, b) => b.score - a.score)] *)
Definition scored (rowsData : list Row) (parsed : ParsedAddress)
    (city zip : option string) : list ScoredRow :=
  JS.sort by_score_desc (map (score_one parsed city zip) rowsData).

(** The selection step of the main loop: [if (!rowsData.length) { ...; continue; }]
    leaves the query without a chosen row, otherwise [const best = scored[0]]. *)
Definition selectBest (rowsData : list Row) (parsed : ParsedAddress)
    (city zip : option string) : option ScoredRow :=
  if (length rowsData =? 0)%nat then None
  else head (scored rowsData parsed city zip).


(** ** Per-signal points

    Each signal's contribution, as a function of that signal's own inputs. *)

Definition housePts (cells : Cells) (rowText : option string)
    (parsed : ParsedAddress) : Z :=
  if JS.truthy_str (house parsed)
     && (JS.includes (norm (Some (JS.or_empty (serviceLocation cells)))) (house parsed)
         || JS.includes (norm rowText) (house parsed))
  then 50 else 0.

Definition zipPts (rowText zipHint : option string) : Z :=
  if JS.truthy zipHint && JS.includes (norm rowText) (norm zipHint)
  then 40 else 0.

Definition cityPts (cells : Cells) (rowText cityHint : option string) : Z :=
  if JS.truthy cityHint
     && (JS.includes (norm rowText) (norm cityHint)
         || JS.includes (norm (Some (JS.or_empty (serviceLocation cells)))) (norm cityHint))
  then 20 else 0.

(** The tokens of the parsed address that occur in the row. *)
Definition matching_tokens (cells : Cells) (rowText : option string)
    (parsed : ParsedAddress) : list string :=
  List.filter
    (token_hits (norm rowText) (norm (Some (JS.or_empty (serviceLocation cells)))))
    (tokens parsed).

Definition streetPts (cells : Cells) (rowText : option string)
    (parsed : ParsedAddress) : Z :=
  5 * Z.of_nat (length (matching_tokens cells rowText parsed)).

Definition emailPts (cells : Cells) : Z :=
  if present (email cells) then 3 else 0.

Definition phonePts (cells : Cells) : Z :=
  if present (phone cells) then 3 else 0.

(** The sum of the values stored in a breakdown object. *)
Definition sum_values (m : gmap string Z) : Z :=
  map_fold (λ _ v acc, v + acc) 0 m.

(** Points contributed by the signal named [k]; any other name has none. *)
Definition signalPts (cells : Cells) (rowText : option string)
    (parsed : ParsedAddress) (cityHint zipHint : option string) (k : string) : Z :=
  if decide (k = "house") then housePts cells rowText parsed
  else if decide (k = "zip") then zipPts rowText zipHint
  else if decide (k = "city") then cityPts cells rowText cityHint
  else if decide (k = "streetTokens") then streetPts cells rowText parsed
  else if decide (k = "email") then emailPts cells
  else if decide (k = "phone") then phonePts cells
  else 0.

(** What a conditional [breakdown.k = v] leaves behind: the key is written
    only when the signal contributed. *)
Definition put (k : string) (pts : Z) (m : gmap string Z) : gmap string Z :=
  if decide (pts = 0) then m else <[k := pts]> m.

(** The comparator of the main loop over any key: larger keys first. *)
Definition desc {A : Type} (key : A → Z) (a b : A) : Z := key b - key a.

(** Keys never increase along the array. *)
Definition descending {A : Type} (key : A → Z) (l : list A) : Prop :=
  StronglySorted (λ a b, key b ≤ key a) l.

(** The score a row receives for a query. *)
Definition row_score (parsed : ParsedAddress) (city zip : option string)
    (r : Row) : Z :=
  score (scoreRow (cells r) (text r) parsed city zip).

(** [same_words a b]: [b] is [a] with letters possibly changed in case and
    white space runs possibly changed in length or in the white space
    characters they are made of. *)
Inductive same_words : string → string → Prop :=
| sw_end : same_words "" ""
| sw_char c d a b :
    JS.is_space c = false →
    JS.lower_char c = JS.lower_char d →
    same_words a b →
    same_words (String c a) (String d b)
| sw_space u v a b :
    JS.truthy_str u = true → JS.all_chars JS.is_space u = true →
    JS.truthy_str v = true → JS.all_chars JS.is_space v = true →
    same_words a b →
    same_words (u +:+ a) (v +:+ b).

(** ** Example data *)

Definition line_feed : string := String "010" "".

Definition query_1462 : ParsedAddress := parseAddress (Some "1462 22nd").

Definition denver_cells : Cells :=
  {| name := None; email := Some "john@x.com"; phone := Some "555-1234";
     serviceLocation := Some "1462 22nd St, Denver";
     city := None; zip := None; href := None |}.

Definition denver_row (rawText : option string) : Row :=
  {| text := rawText; cells := denver_cells |}.

Definition denver_text : option string :=
  Some "... 1462 22nd St, Denver ... john@x.com 555-1234".

Definition oak_cells : Cells :=
  {| name := None; email := Some ""; phone := Some "";
     serviceLocation := Some "99 Oak Ave";
     city := None; zip := None; href := None |}.

Definition oak_row : Row := {| text := Some "99 Oak Ave"; cells := oak_cells |}.

Definition elm_row : Row :=
  {| text := Some "7 Elm Rd";
     cells := {| name := None; email := None; phone := None;
                 serviceLocation := Some "7 Elm Rd";
                 city := None; zip := None; href := None |} |}.

(** ** The rest of the main loop

    The pure steps of [Actor.main] around the scoring: building the task
    list from the input, the file-name slug of a query, reading the table
    rows through the header map, the index used for the click, the top-3
    preview and the customer id taken from the detail URL. *)

(** ** Normal forms

    [collapsed after_space s]: the only white space in [s] is the space
    character, never twice in a row, and not at the start when [after_space]
    is set. *)
Fixpoint collapsed (after_space : bool) (s : string) : bool :=
  match s with
  | EmptyString => true
  | String c s' =>
      if JS.is_space c
      then (if ascii_dec c " " then true else false)
           && negb after_space && collapsed true s'
      else collapsed false s'
  end.

(** *** Regular expressions

    The patterns of [getHeaderMap], all used with the flag [i] and through
    [re.test]: syntax, a matcher by derivatives, and what matching means. *)

Module Re.

Inductive regex : Type :=
| Fail
| Eps
| Chr (c : ascii)
| Space
| Seq (r1 r2 : regex)
| Alt (r1 r2 : regex)
| Star (r : regex)
| Opt (r : regex).

(** A pattern character against an input character, letters in either
    case. *)
Definition chr_matches (c x : ascii) : bool :=
  if ascii_dec (JS.lower_char x) (JS.lower_char c) then true else false.

(** The pattern that is a literal text. *)
Fixpoint lit (p : string) : regex :=
  match p with
  | EmptyString => Eps
  | String c p' => Seq (Chr c) (lit p')
  end.

(** The regular expression matches the empty string. *)
Fixpoint nullable (r : regex) : bool :=
  match r with
  | Fail => false
  | Eps => true
  | Chr _ => false
  | Space => false
  | Seq r1 r2 => nullable r1 && nullable r2
  | Alt r1 r2 => nullable r1 || nullable r2
  | Star _ => true
  | Opt _ => true
  end.

(** What is left to match after the character [x]. *)
Fixpoint deriv (x : ascii) (r : regex) : regex :=
  match r with
  | Fail => Fail
  | Eps => Fail
  | Chr c => if chr_matches c x then Eps else Fail
  | Space => if JS.is_space x then Eps else Fail
  | Seq r1 r2 =>
      Alt (Seq (deriv x r1) r2) (if nullable r1 then deriv x r2 else Fail)
  | Alt r1 r2 => Alt (deriv x r1) (deriv x r2)
  | Star r1 => Seq (deriv x r1) (Star r1)
  | Opt r1 => deriv x r1
  end.

(** Some prefix of [s] matches [r]. *)
Fixpoint prefix_match (r : regex) (s : string) : bool :=
  nullable r ||
  match s with
  | EmptyString => false
  | String x s' => prefix_match (deriv x r) s'
  end.

(** [re.test(s)]: [r] matches somewhere in [s]. *)
Fixpoint test (r : regex) (s : string) : bool :=
  prefix_match r s ||
  match s with
  | EmptyString => false
  | String _ s' => test r s'
  end.

(** The strings a regular expression matches. *)
Inductive matches : regex → string → Prop :=
| m_eps : matches Eps EmptyString
| m_chr c x : chr_matches c x = true → matches (Chr c) (String x EmptyString)
| m_space x : JS.is_space x = true → matches Space (String x EmptyString)
| m_seq r1 r2 s1 s2 :
    matches r1 s1 → matches r2 s2 → matches (Seq r1 r2) (s1 +:+ s2)
| m_alt_l r1 r2 s : matches r1 s → matches (Alt r1 r2) s
| m_alt_r r1 r2 s : matches r2 s → matches (Alt r1 r2) s
| m_star_nil r : matches (Star r) EmptyString
| m_star_cons r s1 s2 :
    matches r s1 → matches (Star r) s2 → matches (Star r) (s1 +:+ s2)
| m_opt_none r : matches (Opt r) EmptyString
| m_opt_some r s : matches r s → matches (Opt r) s.

End Re.

(** *** The header map *)

Module Header.

(** [/(customer\s*name|name)/i] *)
Definition re_name : Re.regex :=
  Re.Alt (Re.Seq (Re.lit "customer") (Re.Seq (Re.Star Re.Space) (Re.lit "name")))
         (Re.lit "name").

(** [/service\s*location/i] *)
Definition re_serviceLocation : Re.regex :=
  Re.Seq (Re.lit "service") (Re.Seq (Re.Star Re.Space) (Re.lit "location")).

(** [/city|state\/?prov/i] *)
Definition re_city : Re.regex :=
  Re.Alt (Re.lit "city")
         (Re.Seq (Re.lit "state") (Re.Seq (Re.Opt (Re.Chr "/")) (Re.lit "prov"))).

(** [/zip|post/i] *)
Definition re_zip : Re.regex := Re.Alt (Re.lit "zip") (Re.lit "post").

(** [/email/i] *)
Definition re_email : Re.regex := Re.lit "email".

(** [/phone/i] *)
Definition re_phone : Re.regex := Re.lit "phone".

(** The body of [headers.forEach((h, i) => { ... })]. *)
Definition header_step (map : gmap string nat) (h : string) (i : nat)
    : gmap string nat :=
  let map := if Re.test re_name h then <["name" := i]> map else map in
  let map := if Re.test re_serviceLocation h
             then <["serviceLocation" := i]> map else map in
  let map := if Re.test re_city h then <["city" := i]> map else map in
  let map := if Re.test re_zip h then <["zip" := i]> map else map in
  let map := if Re.test re_email h then <["email" := i]> map else map in
  let map := if Re.test re_phone h then <["phone" := i]> map else map in
  map.

(** [headers.forEach] from index [i] on. *)
Fixpoint forEach_from (i : nat) (headers : list string) (map : gmap string nat)
    : gmap string nat :=
  match headers with
  | [] => map
  | h :: hs => forEach_from (S i) hs (header_step map h i)
  end.

(** [ths.map(th => (th.textContent || '').trim())] *)
Definition header_texts (ths : list string) : list string :=
  map (λ textContent, JS.trim (JS.or_empty (Some textContent))) ths.

(** [async function getHeaderMap(page)], given the [textContent] of each
    [th]: the pair [{ headers, map }]. *)
Definition getHeaderMap (ths : list string) : list string * gmap string nat :=
  let headers := header_texts ths in
  (headers, forEach_from 0 headers ∅).

(** The pattern tested for the key [k], if [k] is one of the six. *)
Definition pattern_of (k : string) : option Re.regex :=
  if decide (k = "name") then Some re_name
  else if decide (k = "serviceLocation") then Some re_serviceLocation
  else if decide (k = "city") then Some re_city
  else if decide (k = "zip") then Some re_zip
  else if decide (k = "email") then Some re_email
  else if decide (k = "phone") then Some re_phone
  else None.

(** The header [h] sets the key [k]. *)
Definition sets_key (k h : string) : bool :=
  match pattern_of k with
  | Some re => Re.test re h
  | None => false
  end.

End Header.

(** *** Tasks *)

Module Tasks.

(** A property of the input that is expected to hold an array: absent,
    present with another kind of value, or an array. *)
Inductive field (A : Type) : Type :=
| Missing
| NotArray
| Arr (l : list A).
Global Arguments Missing {A}.
Global Arguments NotArray {A}.
Global Arguments Arr {A} l.

(** The destructuring default [x = []], which applies to an absent property. *)
Definition or_default {A : Type} (f : field A) : field A :=
  match f with Missing => Arr [] | _ => f end.

(** One element of [queries]: [{ address, city, zip }], each possibly absent. *)
Record Query := {
  q_address : option string;
  q_city : option string;
  q_zip : option string;
}.

(** One element of [tasks]. *)
Record Task := {
  address : option string;
  city : option string;
  zip : option string;
}.

(** [q => ({ address: q.address || '', city: q.city || '', zip: q.zip || '' })] *)
Definition task_of_query (q : Query) : Task :=
  {| address := Some (JS.or_empty (q_address q));
     city := Some (JS.or_empty (q_city q));
     zip := Some (JS.or_empty (q_zip q)) |}.

(** [a => ({ address: a })] *)
Definition task_of_address (a : option string) : Task :=
  {| address := a; city := None; zip := None |}.

(** [const tasks = Array.isArray(queries) && queries.length ? queries.map(...)
      : (Array.isArray(addresses) ? addresses.map(...) : [])] *)
Definition tasks (addresses : field (option string)) (queries : field Query)
    : list Task :=
  match or_default queries with
  | Arr (q :: qs) => map task_of_query (q :: qs)
  | _ =>
      match or_default addresses with
      | Arr l => map task_of_address l
      | _ => []
      end
  end.

(** [if (!tasks.length) throw new Error(...)]: [None] is the thrown error. *)
Definition checked_tasks (addresses : field (option string))
    (queries : field Query) : option (list Task) :=
  let t := tasks addresses queries in
  if (length t =? 0)%nat then None else Some t.



End Tasks.

Module Main.

(** *** The slug *)

(** [\w] is [A-Za-z0-9_]. *)
Definition is_word_char (c : ascii) : bool :=
  let n := N_of_ascii c in
  (((48 <=? n) && (n <=? 57)) || ((65 <=? n) && (n <=? 90))
   || ((97 <=? n) && (n <=? 122)) || (n =? 95))%N.

(** [s.replace(/\W+/g, '_')]: every maximal run of non-word characters
    becomes one underscore. *)
Fixpoint replace_nonword_from (in_run : bool) (s : string) : string :=
  match s with
  | EmptyString => EmptyString
  | String c s' =>
      if is_word_char c then String c (replace_nonword_from false s')
      else if in_run then replace_nonword_from true s'
           else String "_" (replace_nonword_from true s')
  end.

Definition replace_nonword (s : string) : string := replace_nonword_from false s.

(** Whether the replacement stands inside a run of non-word characters
    after the text [u]. *)
Fixpoint in_run_after (in_run : bool) (u : string) : bool :=
  match u with
  | EmptyString => in_run
  | String c u' => in_run_after (negb (is_word_char c)) u'
  end.

(** [const safe = address.replace(/\W+/g, '_') || 'query'].  Calling
    [replace] on [undefined] or [null] throws a TypeError: [None]. *)
Definition safe (address : option string) : option string :=
  match address with
  | None => None
  | Some a =>
      let s := replace_nonword a in
      Some (if JS.truthy_str s then s else "query")
  end.

(** *** Reading the rows *)

(** An [a] element of a row: its [href] attribute, if any, and its [href]
    property (the resolved URL). *)
Record Anchor := {
  href_attribute : option string;
  href_property : string;
}.

(** A [tr] of the table body as the reader sees it. *)
Record Tr := {
  textContent : string;
  tds : list string;
  anchors : list Anchor;
}.

(** [const pick = (idx) => (idx != null && tds[idx])
      ? (tds[idx].textContent || '').trim() : ''] *)
Definition pick (tds : list string) (idx : option nat) : string :=
  match idx with
  | Some i =>
      match tds !! i with
      | Some td => JS.trim (JS.or_empty (Some td))
      | None => EmptyString
      end
  | None => EmptyString
  end.

(** [tr.querySelector("a[href*='customer']") || tr.querySelector('a')] *)
Definition find_link (l : list Anchor) : option Anchor :=
  match List.find (λ a, match href_attribute a with
                        | Some h => JS.includes h "customer"
                        | None => false
                        end) l with
  | Some a => Some a
  | None => head l
  end.

(** The callback of [$$eval] for one [tr]. *)
Definition read_row (mapIn : gmap string nat) (tr : Tr) : Row :=
  {| text := Some (JS.or_empty (Some (textContent tr)));
     cells :=
       {| name := Some (pick (tds tr) (mapIn !! "name"));
          email := Some (pick (tds tr) (mapIn !! "email"));
          phone := Some (pick (tds tr) (mapIn !! "phone"));
          serviceLocation := Some (pick (tds tr) (mapIn !! "serviceLocation"));
          city := Some (pick (tds tr) (mapIn !! "city"));
          zip := Some (pick (tds tr) (mapIn !! "zip"));
          href := href_property <$> find_link (anchors tr) |} |}.


(** [Array.from(trs).slice(0, 100).map(...)] *)
Definition read_rows (mapIn : gmap string nat) (trs : list Tr) : list Row :=
  map (read_row mapIn) (take 100 trs).

(** *** The index that is clicked *)

(** The objects of [scored], each with its identity: the position at which
    [rowsData.map] created it. *)
Definition scored_objects (rowsData : list Row) (parsed : ParsedAddress)
    (city zip : option string) : list (nat * ScoredRow) :=
  JS.sort (λ a b, by_score_desc (snd a) (snd b))
          (imap (λ i r, (i, score_one parsed city zip r)) rowsData).

(** [arr.indexOf(x)] on an array of objects: the first position holding the
    very same object, or -1. *)
Fixpoint indexOf_from (n : Z) (arr : list (nat * ScoredRow)) (x : nat) : Z :=
  match arr with
  | [] => -1
  | o :: arr' => if (fst o =? x)%nat then n else indexOf_from (n + 1) arr' x
  end.

Definition indexOf (arr : list (nat * ScoredRow)) (x : nat) : Z :=
  indexOf_from 0 arr x.

(** [const best = scored[0]; const bestIndex = scored.indexOf(best)], for a
    table that passed the emptiness guard. *)
Definition bestIndex (rowsData : list Row) (parsed : ParsedAddress)
    (city zip : option string) : option Z :=
  match scored_objects rowsData parsed city zip with
  | [] => None
  | best :: _ => Some (indexOf (scored_objects rowsData parsed city zip) (fst best))
  end.

(** [rowHandles[bestIndex]] *)
Definition clicked {H : Type} (rowHandles : list H) (rowsData : list Row)
    (parsed : ParsedAddress) (city zip : option string) : option H :=
  match bestIndex rowsData parsed city zip with
  | Some i => if i <? 0 then None else rowHandles !! Z.to_nat i
  | None => None
  end.

(** *** The preview and the chosen record *)

Record Preview := {
  p_score : Z;
  p_breakdown : gmap string Z;
  p_name : option string;
  p_serviceLocation : option string;
  p_city : option string;
  p_zip : option string;
  p_href : option string;
}.

(** [s => ({ score: s.score, breakdown: s.breakdown, name: s.cells.name, ...,
            href: s.cells.href || null })] *)
Definition preview_of (s : ScoredRow) : Preview :=
  {| p_score := score (result s);
     p_breakdown := breakdown (result s);
     p_name := name (cells (row s));
     p_serviceLocation := serviceLocation (cells (row s));
     p_city := city (cells (row s));
     p_zip := zip (cells (row s));
     p_href := if JS.truthy (href (cells (row s))) then href (cells (row s))
               else None |}.

(** [tablePreviewTop3: scored.slice(0, 3).map(...)] *)
Definition tablePreviewTop3 (rowsData : list Row) (parsed : ParsedAddress)
    (city zip : option string) : list Preview :=
  map preview_of (take 3 (scored rowsData parsed city zip)).

(** The [chosen] record pushed once the detail page is open. *)
Definition chosen (rowsData : list Row) (parsed : ParsedAddress)
    (city zip : option string) : option Preview :=
  preview_of <$> selectBest rowsData parsed city zip.

(** *** The customer id *)

(** [[a-zA-Z0-9_-]] *)
Definition is_id_char (c : ascii) : bool :=
  is_word_char c || (N_of_ascii c =? 45)%N.

(** [s] starts with the lower-case ASCII text [p], letters compared without
    regard to case (flag [i]). *)
Fixpoint starts_with_ci (s p : string) : bool :=
  match p, s with
  | EmptyString, _ => true
  | String _ _, EmptyString => false
  | String a p', String b s' =>
      if ascii_dec (JS.lower_char b) a then starts_with_ci s' p' else false
  end.

Fixpoint drop_chars (n : nat) (s : string) : string :=
  match n, s with
  | O, _ => s
  | S n', String _ s' => drop_chars n' s'
  | S _, EmptyString => EmptyString
  end.

(** The capture [([a-zA-Z0-9_-]+)] at the start of [s]: the whole run of id
    characters, which must not be empty. *)
Definition capture_id (s : string) : option string :=
  let run := fst (JS.span is_id_char s) in
  if JS.truthy_str run then Some run else None.

(** The pattern of [customerId] tried at the start of [s]: [id=] or
    [/customer/view] with an optional slash, then the capture.  The two
    alternatives start with different characters; after [/customer/view] the
    optional slash is taken when it is there, and giving it back cannot help,
    a slash being no id character. *)
Definition customerId_here (s : string) : option string :=
  if starts_with_ci s "id=" then capture_id (drop_chars 3 s)
  else if starts_with_ci s "/customer/view" then
    match drop_chars 14 s with
    | String c r => if ascii_dec c "/" then capture_id r else capture_id (String c r)
    | EmptyString => capture_id EmptyString
    end
  else None.

(** [detailUrl.match(/(?:id=|\/customer\/view\/?)([a-zA-Z0-9_-]+)/i)] and
    [idMatch ? idMatch[1] : null]: the leftmost position where the pattern
    matches decides. *)
Fixpoint customerId (detailUrl : string) : option string :=
  match customerId_here detailUrl with
  | Some id => Some id
  | None =>
      match detailUrl with
      | EmptyString => None
      | String _ rest => customerId rest
      end
  end.

(** No position inside [pre] starts a match of one of the two markers when
    [pre] is followed by [next]. *)
Fixpoint no_marker_in (pre next : string) : bool :=
  match pre with
  | EmptyString => true
  | String _ pre' =>
      negb (starts_with_ci (pre +:+ next) "id=")
      && negb (starts_with_ci (pre +:+ next) "/customer/view")
      && no_marker_in pre' next
  end.

End Main.

(** ** Facts about the string primitives *)

Lemma startsWith_empty s : JS.startsWith s "" = true.
Proof. by destruct s. Qed.

Lemma includes_empty s : JS.includes s "" = true.
Proof. destruct s; simpl; by rewrite ?startsWith_empty. Qed.

Lemma is_space_lower_char c : JS.is_space (JS.lower_char c) = JS.is_space c.
Proof. by destruct c as [[] [] [] [] [] [] [] []]. Qed.

Lemma lower_char_idemp c : JS.lower_char (JS.lower_char c) = JS.lower_char c.
Proof. by destruct c as [[] [] [] [] [] [] [] []]. Qed.

Lemma or_empty_idemp v : JS.or_empty (Some (JS.or_empty v)) = JS.or_empty v.
Proof. destruct v as [[|c s]|]; reflexivity. Qed.

Lemma or_empty_Some s : JS.or_empty (Some s) = s.
Proof. by destruct s. Qed.

Lemma norm_or_empty v : norm (Some (JS.or_empty v)) = norm v.
Proof. unfold norm. by rewrite or_empty_idemp. Qed.

Lemma all_space_toLowerCase s :
  JS.all_chars JS.is_space (JS.toLowerCase s) = JS.all_chars JS.is_space s.
Proof. induction s as [|c s IH]; simpl; [done|]. by rewrite is_space_lower_char, IH. Qed.

Lemma replace_spaces_from_all_space b s :
  JS.all_chars JS.is_space s = true →
  JS.replace_spaces_from b s =
    if b then "" else if JS.truthy_str s then " " else "".
Proof.
  revert b. induction s as [|c s IH]; intros b Hs; simpl in *.
  - by destruct b.
  - apply andb_true_iff in Hs as [Hc Hs]. rewrite Hc.
    destruct b; rewrite (IH true Hs); done.
Qed.

(** A string of white space only normalises to the empty string. *)
Lemma norm_all_space s :
  JS.all_chars JS.is_space s = true → norm (Some s) = "".
Proof.
  intros Hs. unfold norm, JS.replace_spaces. rewrite or_empty_Some.
  rewrite replace_spaces_from_all_space by (by rewrite all_space_toLowerCase).
  by destruct (JS.truthy_str _).
Qed.

(** ** Facts about [scoreRow] *)

Lemma count_streetHits_from text textLoc toks (n : Z) :
  fold_left (λ streetHits tok,
               if token_hits text textLoc tok then streetHits + 1 else streetHits)
            toks n
  = n + Z.of_nat (length (List.filter (token_hits text textLoc) toks)).
Proof.
  revert n. induction toks as [|tok toks IH]; intros n; simpl; [lia|].
  rewrite IH. destruct (token_hits text textLoc tok); simpl; lia.
Qed.

Lemma count_streetHits_length text textLoc toks :
  count_streetHits text textLoc toks
  = Z.of_nat (length (List.filter (token_hits text textLoc) toks)).
Proof. unfold count_streetHits. by rewrite count_streetHits_from. Qed.

Lemma streetPts_hits cells rowText parsed :
  count_streetHits (norm rowText) (norm (Some (JS.or_empty (serviceLocation cells))))
                   (tokens parsed) * 5
  = streetPts cells rowText parsed.
Proof. unfold streetPts, matching_tokens. rewrite count_streetHits_length. lia. Qed.

Lemma score_award k v st : score (award k v st) = score st + v.
Proof. reflexivity. Qed.

(** The total is the sum of the six per-signal contributions. *)
Lemma scoreRow_score cells rowText parsed cityHint zipHint :
  score (scoreRow cells rowText parsed cityHint zipHint)
  = housePts cells rowText parsed + zipPts rowText zipHint
    + cityPts cells rowText cityHint + streetPts cells rowText parsed
    + emailPts cells + phonePts cells.
Proof.
  unfold scoreRow, housePts, zipPts, cityPts, emailPts, phonePts.
  rewrite <- streetPts_hits.
  destruct (JS.truthy_str (house parsed)), (JS.truthy zipHint),
    (JS.truthy cityHint), (present (email cells)), (present (phone cells));
    simpl; repeat destruct (JS.includes _ _); simpl; lia.
Qed.

Lemma streetPts_nonneg cells rowText parsed : 0 ≤ streetPts cells rowText parsed.
Proof. unfold streetPts. lia. Qed.

Lemma scoreRow_nonneg cells rowText parsed cityHint zipHint :
  0 ≤ score (scoreRow cells rowText parsed cityHint zipHint).
Proof.
  rewrite scoreRow_score.
  pose proof (streetPts_nonneg cells rowText parsed).
  unfold housePts, zipPts, cityPts, emailPts, phonePts.
  repeat match goal with
         | |- context [if ?b then _ else _] => destruct b
         end; lia.
Qed.

(** A falsy hint, be it absent or the empty string, is no hint. *)
Lemma scoreRow_falsy_hints cells rowText parsed noCity noZip :
  JS.truthy noCity = false → JS.truthy noZip = false →
  scoreRow cells rowText parsed noCity noZip
  = scoreRow cells rowText parsed None None.
Proof. intros Hc Hz. unfold scoreRow. by rewrite Hc, Hz. Qed.

(** *** The breakdown object *)

Lemma lookup_put k pts (m : gmap string Z) k' :
  put k pts m !! k' =
    if decide (k = k') then (if decide (pts = 0) then m !! k' else Some pts)
    else m !! k'.
Proof.
  unfold put. destruct (decide (pts = 0)).
  - by destruct (decide (k = k')).
  - apply lookup_insert.
Qed.

Lemma sum_values_empty : sum_values ∅ = 0.
Proof. apply map_fold_empty. Qed.

Lemma sum_values_insert k v (m : gmap string Z) :
  m !! k = None → sum_values (<[k := v]> m) = v + sum_values m.
Proof.
  intros Hk. unfold sum_values.
  rewrite map_fold_insert_L; [done| |done].
  intros; lia.
Qed.

Lemma sum_values_put k pts (m : gmap string Z) :
  m !! k = None → sum_values (put k pts m) = pts + sum_values m.
Proof.
  intros Hk. unfold put. destruct (decide (pts = 0)) as [->|].
  - lia.
  - by apply sum_values_insert.
Qed.

(** The breakdown as a chain of writes: five conditional ones and the
    unconditional [breakdown.streetTokens = streetPts]. *)
Lemma scoreRow_breakdown cells rowText parsed cityHint zipHint :
  breakdown (scoreRow cells rowText parsed cityHint zipHint)
  = put "phone" (phonePts cells)
      (put "email" (emailPts cells)
         (<["streetTokens" := streetPts cells rowText parsed]>
            (put "city" (cityPts cells rowText cityHint)
               (put "zip" (zipPts rowText zipHint)
                  (put "house" (housePts cells rowText parsed) ∅))))).
Proof.
  unfold scoreRow, housePts, zipPts, cityPts, emailPts, phonePts.
  rewrite <- streetPts_hits.
  destruct (JS.truthy_str (house parsed)), (JS.truthy zipHint),
    (JS.truthy cityHint), (present (email cells)), (present (phone cells));
    simpl; repeat destruct (JS.includes _ _); reflexivity.
Qed.

(** Every key of the breakdown, with the value stored under it. *)
Lemma scoreRow_breakdown_lookup cells rowText parsed cityHint zipHint k :
  breakdown (scoreRow cells rowText parsed cityHint zipHint) !! k =
    if decide (k = "streetTokens") then Some (streetPts cells rowText parsed)
    else if decide (k = "house") then
      (if decide (housePts cells rowText parsed = 0) then None else Some 50)
    else if decide (k = "zip") then
      (if decide (zipPts rowText zipHint = 0) then None else Some 40)
    else if decide (k = "city") then
      (if decide (cityPts cells rowText cityHint = 0) then None else Some 20)
    else if decide (k = "email") then
      (if decide (emailPts cells = 0) then None else Some 3)
    else if decide (k = "phone") then
      (if decide (phonePts cells = 0) then None else Some 3)
    else None.
Proof.
  rewrite scoreRow_breakdown.
  rewrite !lookup_put, lookup_insert, !lookup_put, lookup_empty.
  repeat case_decide; subst; try done;
    unfold housePts, zipPts, cityPts, emailPts, phonePts in *;
    repeat match goal with
           | H : context [if ?b then _ else _] |- _ => destruct b
           | |- context [if ?b then _ else _] => destruct b
           end; done.
Qed.

Lemma scoreRow_sum_values cells rowText parsed cityHint zipHint :
  sum_values (breakdown (scoreRow cells rowText parsed cityHint zipHint))
  = score (scoreRow cells rowText parsed cityHint zipHint).
Proof.
  rewrite scoreRow_score, scoreRow_breakdown.
  rewrite !sum_values_put, sum_values_insert, !sum_values_put, sum_values_empty;
    [lia|..];
    rewrite ?lookup_put, ?lookup_insert, ?lookup_put, ?lookup_empty;
    repeat case_decide; done.
Qed.

(** ** Facts about the stable sort *)

Section SortByKey.
Context {A : Type} (key : A → Z).

Lemma insert_sorted_perm x l : JS.insert_sorted (desc key) x l ≡ₚ x :: l.
Proof.
  induction l as [|y l IH]; simpl; [done|].
  destruct ((desc key) x y <=? 0); [done|].
  rewrite IH. apply Permutation_swap.
Qed.

Lemma sort_perm l : JS.sort (desc key) l ≡ₚ l.
Proof.
  induction l as [|x l IH]; simpl; [done|].
  by rewrite insert_sorted_perm, IH.
Qed.

Lemma sort_length l : length (JS.sort (desc key) l) = length l.
Proof. by rewrite sort_perm. Qed.

Lemma insert_sorted_descending x l :
  descending key l → descending key (JS.insert_sorted (desc key) x l).
Proof.
  unfold descending, desc.
  induction l as [|y l IH]; intros Hl; simpl.
  - repeat constructor.
  - destruct (Z.leb_spec (key y - key x) 0) as [Hle|Hgt].
    + constructor; [done|].
      apply StronglySorted_inv in Hl as [_ Hy].
      constructor; [lia|].
      eapply Forall_impl; [exact Hy|]. simpl. intros; lia.
    + apply StronglySorted_inv in Hl as [Hl Hy].
      constructor; [by apply IH|].
      rewrite insert_sorted_perm. constructor; [lia|done].
Qed.

Lemma sort_descending l : descending key (JS.sort (desc key) l).
Proof.
  induction l as [|x l IH]; simpl; [constructor|].
  by apply insert_sorted_descending.
Qed.

(** Stability: the elements sharing a key keep their relative order. *)
Lemma insert_sorted_stable (s : Z) x l :
  List.filter (λ a, key a =? s) (JS.insert_sorted (desc key) x l)
  = List.filter (λ a, key a =? s) (x :: l).
Proof.
  induction l as [|y l IH]; simpl; [done|].
  unfold desc at 1.
  destruct (Z.leb_spec (key y - key x) 0) as [Hle|Hgt]; [done|].
  simpl in *. rewrite IH.
  destruct (Z.eqb_spec (key y) s), (Z.eqb_spec (key x) s); try done; lia.
Qed.

Lemma sort_stable (s : Z) l :
  List.filter (λ a, key a =? s) (JS.sort (desc key) l)
  = List.filter (λ a, key a =? s) l.
Proof.
  induction l as [|x l IH]; simpl; [done|].
  rewrite insert_sorted_stable. simpl. by rewrite IH.
Qed.

(** The first element of the sorted array is the earliest element of the
    input that carries the largest key. *)
Lemma head_sort_first_max x l :
  ∃ (i : nat) (b : A),
    (x :: l) !! i = Some b
    ∧ head (JS.sort (desc key) (x :: l)) = Some b
    ∧ (∀ (j : nat) (c : A), (x :: l) !! j = Some c → key c ≤ key b)
    ∧ (∀ (j : nat) (c : A), (x :: l) !! j = Some c → (j < i)%nat → key c < key b).
Proof.
  revert x. induction l as [|y l IH]; intros x.
  - exists 0%nat, x. simpl. split_and!; [done|done| |].
    + intros [|j] c Hc; simplify_eq/=. lia.
    + intros j c _ Hj. lia.
  - destruct (IH y) as (i & b & Hi & Hhd & Hmax & Hlt).
    change (JS.sort (desc key) (x :: y :: l))
      with (JS.insert_sorted (desc key) x (JS.sort (desc key) (y :: l))).
    destruct (JS.sort (desc key) (y :: l)) as [|b' rest] eqn:Hs; simplify_eq/=.
    unfold desc at 1.
    destruct (Z.leb_spec (key b - key x) 0) as [Hle|Hgt].
    + exists 0%nat, x. split_and!; [done|done| |].
      * intros [|j] c Hc; simplify_eq/=; [lia|].
        specialize (Hmax j c Hc). lia.
      * intros j c _ Hj. lia.
    + exists (S i), b. split_and!; [done|done| |].
      * intros [|j] c Hc; simplify_eq/=; [lia|]. by eapply Hmax.
      * intros [|j] c Hc Hj; simplify_eq/=; [lia|].
        eapply Hlt; [done|lia].
Qed.

(** When no later element has a strictly larger key, the first one stays
    in front. *)
Lemma head_sort_first x l :
  Forall (λ c, key c ≤ key x) l → head (JS.sort (desc key) (x :: l)) = Some x.
Proof.
  intros Hl. simpl.
  destruct (JS.sort (desc key) l) as [|b rest] eqn:Hs; [done|].
  simpl. unfold desc at 1.
  assert (b ∈ l) as Hb by (rewrite <- (sort_perm l), Hs; left).
  rewrite Forall_forall in Hl. specialize (Hl b Hb).
  destruct (Z.leb_spec (key b - key x) 0); [done|lia].
Qed.

End SortByKey.

(** Sorting commutes with a map that preserves the outcome of every
    comparison. *)
Lemma sort_map {A B} (f : A → B) (cmpA : A → A → Z) (cmpB : B → B → Z) l :
  (∀ x y, (cmpB (f x) (f y) <=? 0) = (cmpA x y <=? 0)) →
  JS.sort cmpB (map f l) = map f (JS.sort cmpA l).
Proof.
  intros Hcmp. induction l as [|x l IH]; simpl; [done|].
  rewrite IH. generalize (JS.sort cmpA l). clear IH.
  intros s. induction s as [|y s IHs]; simpl; [done|].
  rewrite Hcmp. destruct (cmpA x y <=? 0); simpl; [done|]. by rewrite IHs.
Qed.

(** ** Facts about [parseAddress] *)

Lemma app_String c u a : String c u +:+ a = String c (u +:+ a).
Proof. reflexivity. Qed.

Lemma app_empty a : "" +:+ a = a.
Proof. reflexivity. Qed.

Lemma span_app p s :
  s = fst (JS.span p s) +:+ snd (JS.span p s)
  ∧ JS.all_chars p (fst (JS.span p s)) = true.
Proof.
  induction s as [|c s [IH1 IH2]]; simpl; [done|].
  destruct (p c) eqn:Hc; simpl; [|done].
  destruct (JS.span p s) as [u v]; simpl in *.
  rewrite app_String, <- IH1, Hc. done.
Qed.

(** [span] splits exactly at the end of a run that is followed by a
    character outside the class (or by nothing). *)
Lemma span_run p u v :
  JS.all_chars p u = true →
  match v with EmptyString => True | String c _ => p c = false end →
  JS.span p (u +:+ v) = (u, v).
Proof.
  intros Hu Hv. induction u as [|c u IH]; simpl in *.
  - rewrite ?app_empty. destruct v as [|c v]; simpl; [done|]. by rewrite Hv.
  - apply andb_true_iff in Hu as [Hc Hu]. rewrite ?app_String; simpl.
    by rewrite Hc, (IH Hu).
Qed.

Lemma digit_not_space c : JS.is_digit c = true → JS.is_space c = false.
Proof. by destruct c as [[] [] [] [] [] [] [] []]. Qed.

Lemma space_not_digit c : JS.is_space c = true → JS.is_digit c = false.
Proof. by destruct c as [[] [] [] [] [] [] [] []]. Qed.

(** The regular expression on a digit run, a white space run and a rest
    free of line terminators. *)
Lemma match_house_rest_parts d w r :
  JS.truthy_str d = true → JS.all_chars JS.is_digit d = true →
  JS.truthy_str w = true → JS.all_chars JS.is_space w = true →
  match r with EmptyString => True | String c _ => JS.is_space c = false end →
  JS.all_chars (λ c, negb (JS.is_line_terminator c)) r = true →
  JS.match_house_rest (d +:+ w +:+ r) = Some (d, r).
Proof.
  intros Hd Hdd Hw Hww Hr Hlt. unfold JS.match_house_rest.
  rewrite (span_run JS.is_digit d (w +:+ r)); [|done|].
  - rewrite (span_run JS.is_space w r) by done.
    by rewrite Hd, Hw, Hlt.
  - destruct w as [|c w]; [done|]. rewrite app_String.
    simpl in Hww. apply andb_true_iff in Hww as [Hc _].
    by apply space_not_digit.
Qed.

(** Whatever the regular expression captures is a split of the input into a
    digit run, a white space run and a rest free of line terminators. *)
Lemma match_house_rest_Some a d r :
  JS.match_house_rest a = Some (d, r) →
  ∃ w, a = d +:+ w +:+ r
       ∧ JS.truthy_str d = true ∧ JS.all_chars JS.is_digit d = true
       ∧ JS.truthy_str w = true ∧ JS.all_chars JS.is_space w = true
       ∧ JS.all_chars (λ c, negb (JS.is_line_terminator c)) r = true.
Proof.
  unfold JS.match_house_rest.
  destruct (span_app JS.is_digit a) as [Ha Hd].
  destruct (JS.span JS.is_digit a) as [d' r1]; simpl in Ha, Hd.
  destruct (span_app JS.is_space r1) as [Hr1 Hw].
  destruct (JS.span JS.is_space r1) as [w r']; simpl in Hr1, Hw.
  destruct (JS.truthy_str d') eqn:Hd'; [|done].
  destruct (JS.truthy_str w) eqn:Hw'; [|done].
  destruct (JS.all_chars _ r') eqn:Hr'; [|done].
  simpl. intros [= <- <-]. exists w. by rewrite <- Hr1.
Qed.

(** A line terminator anywhere in the rest makes the match fail. *)
Lemma match_house_rest_line_terminator d w r :
  JS.all_chars JS.is_digit d = true →
  JS.truthy_str w = true → JS.all_chars JS.is_space w = true →
  match r with EmptyString => True | String c _ => JS.is_space c = false end →
  JS.all_chars (λ c, negb (JS.is_line_terminator c)) r = false →
  JS.match_house_rest (d +:+ w +:+ r) = None.
Proof.
  intros Hdd Hw Hww Hr Hlt. unfold JS.match_house_rest.
  rewrite (span_run JS.is_digit d (w +:+ r)); [|done|].
  - rewrite (span_run JS.is_space w r) by done.
    rewrite Hlt. by rewrite andb_false_r.
  - destruct w as [|c w]; [done|]. rewrite app_String.
    simpl in Hww. apply andb_true_iff in Hww as [Hc _].
    by apply space_not_digit.
Qed.

(** With a line-terminator-free rest, the house number is the digit run and
    the street is what follows the white space. *)
Lemma parseAddress_house_rest address d w r :
  JS.trim (JS.or_empty address) = d +:+ w +:+ r →
  JS.truthy_str d = true → JS.all_chars JS.is_digit d = true →
  JS.truthy_str w = true → JS.all_chars JS.is_space w = true →
  match r with EmptyString => True | String c _ => JS.is_space c = false end →
  JS.all_chars (λ c, negb (JS.is_line_terminator c)) r = true →
  house (parseAddress address) = d ∧ street (parseAddress address) = r.
Proof.
  intros Ha Hd Hdd Hw Hww Hr Hlt. unfold parseAddress; simpl.
  rewrite Ha, match_house_rest_parts by done. done.
Qed.

(** With a line terminator in the rest, there is no house number at all and
    the street is the whole trimmed address. *)
Lemma parseAddress_line_terminator address d w r :
  JS.trim (JS.or_empty address) = d +:+ w +:+ r →
  JS.all_chars JS.is_digit d = true →
  JS.truthy_str w = true → JS.all_chars JS.is_space w = true →
  match r with EmptyString => True | String c _ => JS.is_space c = false end →
  JS.all_chars (λ c, negb (JS.is_line_terminator c)) r = false →
  house (parseAddress address) = ""
  ∧ street (parseAddress address) = JS.trim (JS.or_empty address).
Proof.
  intros Ha Hdd Hw Hww Hr Hlt. unfold parseAddress; simpl.
  rewrite Ha, match_house_rest_line_terminator by done. done.
Qed.

(** Without a leading digit there is no house number and the street is the
    trimmed address. *)
Lemma parseAddress_no_leading_digit address :
  match JS.trim (JS.or_empty address) with
  | EmptyString => True
  | String c _ => JS.is_digit c = false
  end →
  house (parseAddress address) = ""
  ∧ street (parseAddress address) = JS.trim (JS.or_empty address).
Proof.
  intros Ha. unfold parseAddress; simpl.
  destruct (JS.trim (JS.or_empty address)) as [|c a]; [done|].
  unfold JS.match_house_rest. simpl. rewrite Ha.
  by destruct (JS.span JS.is_space (String c a)).
Qed.

(** *** Addresses that differ in letter case and white space runs *)

Lemma lower_eq_not_space c d :
  JS.is_space c = false → JS.lower_char c = JS.lower_char d → JS.is_space d = false.
Proof. intros Hc Hcd. by rewrite <- (is_space_lower_char d), <- Hcd, is_space_lower_char. Qed.

Lemma trimStart_spaces u a :
  JS.all_chars JS.is_space u = true → JS.trimStart (u +:+ a) = JS.trimStart a.
Proof.
  induction u as [|c u IH]; simpl; intros Hu; [done|].
  apply andb_true_iff in Hu as [Hc Hu]. rewrite ?app_String; simpl.
  by rewrite Hc, IH.
Qed.

Lemma trimEnd_spaces u a :
  JS.all_chars JS.is_space u = true →
  JS.trimEnd (u +:+ a) =
    match JS.trimEnd a with EmptyString => "" | r => u +:+ r end.
Proof.
  induction u as [|c u IH]; simpl; intros Hu.
  - rewrite ?app_empty. by destruct (JS.trimEnd a).
  - apply andb_true_iff in Hu as [Hc Hu]. rewrite ?app_String; simpl.
    rewrite (IH Hu), Hc. destruct (JS.trimEnd a); [done|].
    destruct u; reflexivity.
Qed.

Lemma trimEnd_nonspace c a :
  JS.is_space c = false → JS.trimEnd (String c a) = String c (JS.trimEnd a).
Proof. intros Hc. simpl. rewrite Hc. by destruct (JS.trimEnd a). Qed.

Lemma same_words_empty a b : same_words a b → a = "" ↔ b = "".
Proof.
  destruct 1 as [|c d a b|u v a b Hu _ Hv _ _]; [done|done|].
  destruct u, v; done.
Qed.

Lemma same_words_trimStart a b :
  same_words a b → same_words (JS.trimStart a) (JS.trimStart b).
Proof.
  induction 1 as [|c d a b Hc Hcd Hab _|u v a b Hu Huu Hv Hvv _ IH].
  - constructor.
  - simpl. rewrite Hc, (lower_eq_not_space c d Hc Hcd). by apply sw_char.
  - by rewrite !trimStart_spaces.
Qed.

Lemma same_words_trimEnd a b :
  same_words a b → same_words (JS.trimEnd a) (JS.trimEnd b).
Proof.
  induction 1 as [|c d a b Hc Hcd _ IH|u v a b Hu Huu Hv Hvv _ IH].
  - constructor.
  - rewrite !trimEnd_nonspace by eauto using lower_eq_not_space. by apply sw_char.
  - rewrite !trimEnd_spaces by done.
    pose proof (same_words_empty _ _ IH) as Hemp.
    destruct (JS.trimEnd a) as [|x a'], (JS.trimEnd b) as [|y b'];
      [constructor| | |by apply sw_space].
    + by destruct Hemp as [Hemp _]; specialize (Hemp eq_refl).
    + by destruct Hemp as [_ Hemp]; specialize (Hemp eq_refl).
Qed.

Lemma toLowerCase_app u a :
  JS.toLowerCase (u +:+ a) = JS.toLowerCase u +:+ JS.toLowerCase a.
Proof. induction u as [|c u IH]; simpl; [done|]. by rewrite !app_String, <- IH. Qed.

Lemma replace_spaces_from_run in_run u a :
  JS.truthy_str u = true → JS.all_chars JS.is_space u = true →
  JS.replace_spaces_from in_run (JS.toLowerCase (u +:+ a)) =
    (if in_run then "" else " ") +:+ JS.replace_spaces_from true (JS.toLowerCase a).
Proof.
  revert in_run. induction u as [|c u IH]; intros in_run Hu Huu; [done|].
  simpl in Huu. apply andb_true_iff in Huu as [Hc Huu].
  rewrite ?app_String; simpl. rewrite is_space_lower_char, Hc.
  destruct u as [|c' u].
  - rewrite ?app_empty. by destruct in_run.
  - rewrite (IH true) by done. by destruct in_run.
Qed.

Lemma same_words_replace_spaces in_run a b :
  same_words a b →
  JS.replace_spaces_from in_run (JS.toLowerCase a)
  = JS.replace_spaces_from in_run (JS.toLowerCase b).
Proof.
  intros H. revert in_run.
  induction H as [|c d a b Hc Hcd _ IH|u v a b Hu Huu Hv Hvv _ IH]; intros in_run.
  - done.
  - simpl. rewrite <- Hcd, is_space_lower_char, Hc. by rewrite IH.
  - rewrite !replace_spaces_from_run by done. by rewrite IH.
Qed.

Lemma same_words_norm a b :
  same_words a b → norm (Some (JS.trim a)) = norm (Some (JS.trim b)).
Proof.
  intros H. unfold norm. rewrite !or_empty_Some. unfold JS.replace_spaces.
  f_equal. apply same_words_replace_spaces.
  unfold JS.trim. by apply same_words_trimEnd, same_words_trimStart.
Qed.

(** ** Properties of the scorer *)

(** C1: for every row, parsed address and pair of hints, the score returned by
    [scoreRow] is a non-negative integer equal to the sum of the six per-signal
    points (house 50, zip 40, city 20, 5 per matching street token, email 3,
    phone 3), each of which is a function of that signal's own inputs only, and
    the values recorded in the breakdown add up to the score. *)
Theorem scoreRow_sum_of_signals cells rowText parsed cityHint zipHint :
  score (scoreRow cells rowText parsed cityHint zipHint)
  = housePts cells rowText parsed + zipPts rowText zipHint
    + cityPts cells rowText cityHint + streetPts cells rowText parsed
    + emailPts cells + phonePts cells
  ∧ 0 ≤ score (scoreRow cells rowText parsed cityHint zipHint)
  ∧ sum_values (breakdown (scoreRow cells rowText parsed cityHint zipHint))
    = score (scoreRow cells rowText parsed cityHint zipHint)
  ∧ (housePts cells rowText parsed = 0 ∨ housePts cells rowText parsed = 50)
  ∧ (zipPts rowText zipHint = 0 ∨ zipPts rowText zipHint = 40)
  ∧ (cityPts cells rowText cityHint = 0 ∨ cityPts cells rowText cityHint = 20)
  ∧ streetPts cells rowText parsed
    = 5 * Z.of_nat (length (matching_tokens cells rowText parsed))
  ∧ (emailPts cells = 0 ∨ emailPts cells = 3)
  ∧ (phonePts cells = 0 ∨ phonePts cells = 3).
Proof.
  split_and!.
  - apply scoreRow_score.
  - apply scoreRow_nonneg.
  - apply scoreRow_sum_values.
  - unfold housePts. destruct (_ && _); auto.
  - unfold zipPts. destruct (_ && _); auto.
  - unfold cityPts. destruct (_ && _); auto.
  - reflexivity.
  - unfold emailPts. destruct (present _); auto.
  - unfold phonePts. destruct (present _); auto.
Qed.

(** C3, as stated, fails: for the row "99 Oak Ave" and the query "1462 22nd"
    no token matches, the street-token signal contributes 0 points, and the
    breakdown nevertheless holds the key [streetTokens], with value 0. *)
Lemma breakdown_keeps_zero_streetTokens :
  signalPts oak_cells (Some "99 Oak Ave") query_1462 None None "streetTokens" = 0
  ∧ breakdown (scoreRow oak_cells (Some "99 Oak Ave") query_1462 None None)
      !! "streetTokens" = Some 0
  ∧ ¬ (∀ k : string,
         is_Some (breakdown (scoreRow oak_cells (Some "99 Oak Ave") query_1462 None None) !! k)
         ↔ signalPts oak_cells (Some "99 Oak Ave") query_1462 None None k ≠ 0).
Proof.
  assert (signalPts oak_cells (Some "99 Oak Ave") query_1462 None None "streetTokens" = 0)
    as Hpts by (vm_compute; reflexivity).
  assert (breakdown (scoreRow oak_cells (Some "99 Oak Ave") query_1462 None None)
            !! "streetTokens" = Some 0) as Hkey by (vm_compute; reflexivity).
  split_and!; [done|done|].
  intros Hall. apply (Hall "streetTokens"); [|exact Hpts].
  rewrite Hkey. by eexists.
Qed.

(** C3, amended: the breakdown holds the keys [house], [zip], [city], [email]
    and [phone] exactly when that signal contributed a non-zero number of
    points, and then with those points as value; it always holds the key
    [streetTokens], whose value is 5 per matching token and so 0 when no
    token matched; it holds no other key. *)
Theorem breakdown_keys cells rowText parsed cityHint zipHint (k : string) :
  breakdown (scoreRow cells rowText parsed cityHint zipHint) !! k =
    if decide (k = "streetTokens") then Some (streetPts cells rowText parsed)
    else if decide (signalPts cells rowText parsed cityHint zipHint k = 0) then None
    else Some (signalPts cells rowText parsed cityHint zipHint k).
Proof.
  rewrite scoreRow_breakdown_lookup. unfold signalPts.
  repeat (destruct (decide (k = _)) as [->|]; [try done|]); try done;
    repeat case_decide; try done;
    unfold housePts, zipPts, cityPts, emailPts, phonePts in *;
    repeat match goal with
           | H : context [if ?b then _ else _] |- _ => destruct b
           | |- context [if ?b then _ else _] => destruct b
           end; done.
Qed.

(** C5: replacing an empty (or absent) city hint by a non-empty one whose
    normalisation occurs in the normalised row text or in the normalised
    service location raises the score by exactly 20, everything else being
    equal; and no city hint ever scores less than the empty one. *)
Theorem matching_city_hint_adds_20 cells rowText parsed zipHint cityHint noCity :
  JS.truthy noCity = false →
  JS.truthy cityHint = true →
  JS.includes (norm rowText) (norm cityHint)
  || JS.includes (norm (serviceLocation cells)) (norm cityHint) = true →
  score (scoreRow cells rowText parsed cityHint zipHint)
  = score (scoreRow cells rowText parsed noCity zipHint) + 20
  ∧ ∀ anyCity,
      score (scoreRow cells rowText parsed noCity zipHint)
      ≤ score (scoreRow cells rowText parsed anyCity zipHint).
Proof.
  intros Hno Hyes Hin.
  assert (cityPts cells rowText noCity = 0) as H0
    by (unfold cityPts; by rewrite Hno).
  split.
  - rewrite !scoreRow_score, H0. unfold cityPts.
    rewrite norm_or_empty, Hyes, Hin. simpl. lia.
  - intros anyCity. rewrite !scoreRow_score, H0. unfold cityPts.
    destruct (_ && _); lia.
Qed.

Lemma matching_city_hint_adds_20_witness :
  score (scoreRow denver_cells denver_text query_1462 (Some "Denver") None)
  = score (scoreRow denver_cells denver_text query_1462 None None) + 20
  ∧ ∀ anyCity,
      score (scoreRow denver_cells denver_text query_1462 None None)
      ≤ score (scoreRow denver_cells denver_text query_1462 anyCity None).
Proof.
  apply (matching_city_hint_adds_20 denver_cells denver_text query_1462
           None (Some "Denver") None); vm_compute; reflexivity.
Defined.

(** ** Properties of the selection *)

Lemma scored_eq rowsData parsed city zip :
  scored rowsData parsed city zip
  = JS.sort (desc (λ a : ScoredRow, score (result a)))
            (score_one parsed city zip <$> rowsData).
Proof. reflexivity. Qed.

Lemma selectBest_cons r0 rows parsed city zip :
  selectBest (r0 :: rows) parsed city zip
  = head (scored (r0 :: rows) parsed city zip).
Proof. reflexivity. Qed.

(** The chosen row is the earliest row of the table with the highest score. *)
Lemma selectBest_first_max r0 rows parsed city zip :
  ∃ (i : nat) (r : Row),
    (r0 :: rows) !! i = Some r
    ∧ selectBest (r0 :: rows) parsed city zip = Some (score_one parsed city zip r)
    ∧ (∀ (j : nat) (r' : Row), (r0 :: rows) !! j = Some r' →
         row_score parsed city zip r' ≤ row_score parsed city zip r)
    ∧ (∀ (j : nat) (r' : Row), (r0 :: rows) !! j = Some r' → (j < i)%nat →
         row_score parsed city zip r' < row_score parsed city zip r).
Proof.
  rewrite selectBest_cons, scored_eq. rewrite fmap_cons.
  destruct (head_sort_first_max (λ a : ScoredRow, score (result a))
              (score_one parsed city zip r0) (score_one parsed city zip <$> rows))
    as (i & b & Hi & Hhd & Hmax & Hlt).
  rewrite <- fmap_cons in Hi, Hmax, Hlt.
  rewrite list_lookup_fmap in Hi.
  destruct ((r0 :: rows) !! i) as [r|] eqn:Hr; [|done].
  injection Hi as <-.
  exists i, r. split_and!; [done|done| |].
  - intros j r' Hj. apply (Hmax j (score_one parsed city zip r')).
    by rewrite list_lookup_fmap, Hj.
  - intros j r' Hj Hji. apply (Hlt j (score_one parsed city zip r')); [|done].
    by rewrite list_lookup_fmap, Hj.
Qed.

(** A first row that no later row beats is the one chosen. *)
Lemma selectBest_first r0 rows parsed city zip :
  Forall (λ r, row_score parsed city zip r ≤ row_score parsed city zip r0) rows →
  selectBest (r0 :: rows) parsed city zip = Some (score_one parsed city zip r0).
Proof.
  intros Hrows. rewrite selectBest_cons, scored_eq, fmap_cons.
  apply (head_sort_first (λ a : ScoredRow, score (result a))).
  rewrite Forall_fmap. eapply Forall_impl; [exact Hrows|]. done.
Qed.

(** C2: in the descending sort, rows with one and the same score keep their
    original relative order; the selection returns the earliest row among
    those with the highest score, so no row is ever chosen over an earlier
    row with an identical score; and of two rows with identical scores the
    first is returned. *)
Theorem ties_keep_original_order r0 rows parsed city zip :
  (∀ s : Z,
     List.filter (λ a, score (result a) =? s) (scored (r0 :: rows) parsed city zip)
     = List.filter (λ a, score (result a) =? s)
         (map (score_one parsed city zip) (r0 :: rows)))
  ∧ (∃ (i : nat) (r : Row),
       (r0 :: rows) !! i = Some r
       ∧ selectBest (r0 :: rows) parsed city zip = Some (score_one parsed city zip r)
       ∧ (∀ (j : nat) (r' : Row), (r0 :: rows) !! j = Some r' →
            row_score parsed city zip r' ≤ row_score parsed city zip r)
       ∧ (∀ (j : nat) (r' : Row), (r0 :: rows) !! j = Some r' → (j < i)%nat →
            row_score parsed city zip r' ≠ row_score parsed city zip r))
  ∧ (∀ r1 : Row,
       row_score parsed city zip r0 = row_score parsed city zip r1 →
       selectBest [r0; r1] parsed city zip = Some (score_one parsed city zip r0)).
Proof.
  split_and!.
  - intros s. apply (sort_stable (λ a : ScoredRow, score (result a))).
  - destruct (selectBest_first_max r0 rows parsed city zip)
      as (i & r & Hi & Hbest & Hmax & Hlt).
    exists i, r. split_and!; [done|done|done|].
    intros j r' Hj Hji. specialize (Hlt j r' Hj Hji). lia.
  - intros r1 Heq. apply selectBest_first.
    constructor; [lia|constructor].
Qed.

Lemma ties_keep_original_order_witness :
  selectBest [oak_row; elm_row] query_1462 None None
  = Some (score_one query_1462 None None oak_row).
Proof.
  apply (ties_keep_original_order oak_row [] query_1462 None None).
  vm_compute; reflexivity.
Defined.

(** C8: when every row of a non-empty table scores 0, the first row of the
    table is chosen. *)
Theorem all_zero_selects_first r0 rows parsed city zip :
  Forall (λ r, row_score parsed city zip r = 0) (r0 :: rows) →
  selectBest (r0 :: rows) parsed city zip = Some (score_one parsed city zip r0).
Proof.
  intros Hall. apply Forall_cons in Hall as [H0 Hrows].
  apply selectBest_first.
  eapply Forall_impl; [exact Hrows|]. simpl. intros r Hr. lia.
Qed.

Lemma all_zero_selects_first_witness :
  Forall (λ r, row_score query_1462 None None r = 0) [oak_row; elm_row]
  ∧ selectBest [oak_row; elm_row] query_1462 None None
    = Some (score_one query_1462 None None oak_row).
Proof.
  assert (Forall (λ r, row_score query_1462 None None r = 0) [oak_row; elm_row])
    as Hall by (repeat constructor; vm_compute; reflexivity).
  split; [exact Hall|].
  exact (all_zero_selects_first oak_row [elm_row] query_1462 None None Hall).
Defined.

(** C7: on an empty table the selection step yields no row; whatever it
    yields is one of the scored rows of the table, so a missing result means
    an empty table and a result is never a made-up row; parsing an absent,
    empty or blank address gives the empty components, and scoring without
    hints gives the sum of the hint-free signals. *)
Theorem empty_table_selects_nothing :
  (∀ parsed city zip, selectBest [] parsed city zip = None)
  ∧ (∀ rowsData parsed city zip,
       match selectBest rowsData parsed city zip with
       | Some b => b ∈ map (score_one parsed city zip) rowsData
       | None => rowsData = []
       end)
  ∧ parseAddress None = {| house := ""; street := ""; tokens := [] |}
  ∧ parseAddress (Some "") = {| house := ""; street := ""; tokens := [] |}
  ∧ parseAddress (Some "   ") = {| house := ""; street := ""; tokens := [] |}
  ∧ (∀ cells rowText parsed,
       score (scoreRow cells rowText parsed None None)
       = housePts cells rowText parsed + streetPts cells rowText parsed
         + emailPts cells + phonePts cells
       ∧ breakdown (scoreRow cells rowText parsed None None) !! "zip" = None
       ∧ breakdown (scoreRow cells rowText parsed None None) !! "city" = None).
Proof.
  split_and!; try reflexivity.
  - intros [|r0 rows] parsed city zip; [reflexivity|].
    destruct (selectBest_first_max r0 rows parsed city zip)
      as (i & r & Hi & -> & _).
    change (map (score_one parsed city zip) (r0 :: rows))
      with (score_one parsed city zip <$> r0 :: rows).
    apply list_elem_of_fmap. exists r. split; [done|].
    by eapply list_elem_of_lookup_2.
  - intros c t p. split_and!.
    + rewrite scoreRow_score. unfold zipPts, cityPts. simpl. lia.
    + by rewrite scoreRow_breakdown_lookup.
    + by rewrite scoreRow_breakdown_lookup.
Qed.

(** ** The worked example *)

Lemma denver_house rawText : housePts denver_cells rawText query_1462 = 50.
Proof.
  unfold housePts.
  assert (JS.includes (norm (Some (JS.or_empty (serviceLocation denver_cells))))
            (house query_1462) = true) as -> by (vm_compute; reflexivity).
  reflexivity.
Qed.

Lemma denver_street rawText : streetPts denver_cells rawText query_1462 = 10.
Proof.
  unfold streetPts, matching_tokens.
  change (tokens query_1462) with ["1462"; "22nd"].
  unfold List.filter, token_hits.
  assert (JS.includes (norm (Some (JS.or_empty (serviceLocation denver_cells))))
            "1462" = true) as -> by (vm_compute; reflexivity).
  assert (JS.includes (norm (Some (JS.or_empty (serviceLocation denver_cells))))
            "22nd" = true) as -> by (vm_compute; reflexivity).
  reflexivity.
Qed.

Lemma denver_score rawText :
  score (scoreRow denver_cells rawText query_1462 None None) = 66.
Proof. rewrite scoreRow_score, denver_house, denver_street. reflexivity. Qed.

(** C4: for the query "1462 22nd" without hints, the Denver row (service
    location "1462 22nd St, Denver", an email and a phone) scores exactly 66
    = 50 + 10 + 3 + 3 whatever its raw text, in particular for the raw text
    of the example; the row "99 Oak Ave" with empty email and phone scores 0;
    an empty hint counts as no hint; and the selection over the two returns
    the Denver row. *)
Theorem example_1462_22nd (rawText : option string) :
  parseAddress (Some "1462 22nd")
  = {| house := "1462"; street := "22nd"; tokens := ["1462"; "22nd"] |}
  ∧ score (scoreRow denver_cells rawText query_1462 None None) = 66
  ∧ housePts denver_cells rawText query_1462 = 50
  ∧ streetPts denver_cells rawText query_1462 = 10
  ∧ emailPts denver_cells = 3
  ∧ phonePts denver_cells = 3
  ∧ scoreRow denver_cells denver_text query_1462 None None
    = {| score := 66;
         breakdown := <["phone" := 3]> (<["email" := 3]>
                        (<["streetTokens" := 10]> (<["house" := 50]> ∅))) |}
  ∧ scoreRow (cells oak_row) (text oak_row) query_1462 None None
    = {| score := 0; breakdown := <["streetTokens" := 0]> ∅ |}
  ∧ scoreRow denver_cells rawText query_1462 (Some "") (Some "")
    = scoreRow denver_cells rawText query_1462 None None
  ∧ selectBest [denver_row rawText; oak_row] query_1462 None None
    = Some (score_one query_1462 None None (denver_row rawText)).
Proof.
  split_and!.
  - vm_compute; reflexivity.
  - apply denver_score.
  - apply denver_house.
  - apply denver_street.
  - vm_compute; reflexivity.
  - vm_compute; reflexivity.
  - vm_compute; reflexivity.
  - vm_compute; reflexivity.
  - by apply scoreRow_falsy_hints.
  - apply selectBest_first. constructor; [|constructor].
    change (row_score query_1462 None None (denver_row rawText))
      with (score (scoreRow denver_cells rawText query_1462 None None)).
    rewrite denver_score. vm_compute. discriminate.
Qed.

(** ** Properties of the address parser *)

(** C6 (what the code does on a multi-line address): the trimmed address
    starts with the digit run "123" followed by a space, yet [parseAddress]
    reports no house number and gives the whole trimmed address as street,
    because the text after the space holds a line feed. *)
Theorem parseAddress_multiline_loses_house :
  JS.trim ("123 Main St" +:+ line_feed +:+ "Denver")
  = "123" +:+ " " +:+ ("Main St" +:+ line_feed +:+ "Denver")
  ∧ parseAddress (Some ("123 Main St" +:+ line_feed +:+ "Denver"))
    = {| house := "";
         street := "123 Main St" +:+ line_feed +:+ "Denver";
         tokens := ["123"; "main"; "st"; "denver"] |}.
Proof. split; vm_compute; reflexivity. Qed.

(** C9: two addresses that differ only in letter case and in the length of
    their white space runs have the same tokens. *)
Theorem tokens_ignore_case_and_spacing a b :
  same_words a b →
  tokens (parseAddress (Some a)) = tokens (parseAddress (Some b)).
Proof.
  intros H. unfold parseAddress. cbn [tokens]. rewrite !or_empty_Some.
  by rewrite (same_words_norm a b H).
Qed.

Lemma tokens_ignore_case_and_spacing_witness :
  same_words "123  Main St" "123 main st"
  ∧ tokens (parseAddress (Some "123  Main St")) = ["123"; "main"; "st"]
  ∧ tokens (parseAddress (Some "123 main st")) = ["123"; "main"; "st"]
  ∧ tokens (parseAddress (Some "123  Main St"))
    = tokens (parseAddress (Some "123 main st")).
Proof.
  assert (same_words "123  Main St" "123 main st") as H.
  { do 3 (apply sw_char; [reflexivity|reflexivity|]).
    apply (sw_space "  " " " "Main St" "main st"); try reflexivity.
    do 4 (apply sw_char; [reflexivity|reflexivity|]).
    apply (sw_space " " " " "St" "st"); try reflexivity.
    do 2 (apply sw_char; [reflexivity|reflexivity|]).
    apply sw_end. }
  split_and!; [exact H|reflexivity|reflexivity|].
  exact (tokens_ignore_case_and_spacing _ _ H).
Defined.

(** ** A blank zip hint *)

Lemma zipPts_blank rowText z :
  JS.truthy_str z = true → JS.all_chars JS.is_space z = true →
  zipPts rowText (Some z) = 40.
Proof.
  intros Hz Hzz. unfold zipPts. simpl.
  by rewrite Hz, (norm_all_space z Hzz), includes_empty.
Qed.

Lemma zipPts_none rowText noZip : JS.truthy noZip = false → zipPts rowText noZip = 0.
Proof. intros H. unfold zipPts. by rewrite H. Qed.

Lemma scoreRow_blank_zip cells rowText parsed city z noZip :
  JS.truthy_str z = true → JS.all_chars JS.is_space z = true →
  JS.truthy noZip = false →
  score (scoreRow cells rowText parsed city (Some z))
  = score (scoreRow cells rowText parsed city noZip) + 40.
Proof.
  intros Hz Hzz Hno.
  rewrite !scoreRow_score, (zipPts_blank _ z Hz Hzz), (zipPts_none _ _ Hno). lia.
Qed.

Lemma row_fmap_score_one parsed city zip (l : list Row) :
  row <$> (score_one parsed city zip <$> l) = l.
Proof. induction l as [|r l IH]; [done|]. rewrite !fmap_cons, IH. done. Qed.

(** The ranking of the table under a blank zip hint and under none. *)
Lemma scored_blank_zip rowsData parsed city z noZip :
  JS.truthy_str z = true → JS.all_chars JS.is_space z = true →
  JS.truthy noZip = false →
  row <$> scored rowsData parsed city (Some z)
  = row <$> scored rowsData parsed city noZip.
Proof.
  intros Hz Hzz Hno. rewrite !scored_eq.
  pose (cmp0 := λ x y : Row,
          desc (λ a : ScoredRow, score (result a))
               (score_one parsed city noZip x) (score_one parsed city noZip y)).
  rewrite (sort_map (score_one parsed city (Some z)) cmp0).
  - rewrite (sort_map (score_one parsed city noZip) cmp0) by done.
    by rewrite <- !list_fmap_compose.
  - intros x y. unfold cmp0, desc. simpl.
    rewrite !(scoreRow_blank_zip _ _ _ _ z noZip) by done.
    f_equal. lia.
Qed.

(** C10: a zip hint that is a non-empty string of white space only fires the
    zip signal on every row, whatever the row holds: it adds exactly 40 to
    each score compared with no zip hint, records [zip: 40], leaves the
    ranking of the rows as it is and so selects the same row. *)
Theorem blank_zip_hint_adds_40_to_every_row z noZip rowsData parsed city :
  JS.truthy_str z = true →
  JS.all_chars JS.is_space z = true →
  JS.truthy noZip = false →
  norm (Some z) = ""
  ∧ (∀ cells rowText,
       zipPts rowText (Some z) = 40
       ∧ breakdown (scoreRow cells rowText parsed city (Some z)) !! "zip" = Some 40
       ∧ score (scoreRow cells rowText parsed city (Some z))
         = score (scoreRow cells rowText parsed city noZip) + 40)
  ∧ row <$> scored rowsData parsed city (Some z)
    = row <$> scored rowsData parsed city noZip
  ∧ row <$> selectBest rowsData parsed city (Some z)
    = row <$> selectBest rowsData parsed city noZip.
Proof.
  intros Hz Hzz Hno. split_and!.
  - by apply norm_all_space.
  - intros c t. split_and!.
    + by apply zipPts_blank.
    + rewrite scoreRow_breakdown_lookup, (zipPts_blank _ z Hz Hzz). done.
    + by apply scoreRow_blank_zip.
  - by apply scored_blank_zip.
  - unfold selectBest. destruct (length rowsData =? 0)%nat; [done|].
    pose proof (scored_blank_zip rowsData parsed city z noZip Hz Hzz Hno) as Heq.
    destruct (scored rowsData parsed city (Some z)) as [|a l],
             (scored rowsData parsed city noZip) as [|a' l'];
      simplify_eq/=; [done|by f_equal].
Qed.

Lemma blank_zip_hint_adds_40_to_every_row_witness :
  score (scoreRow oak_cells (Some "99 Oak Ave") query_1462 None (Some " ")) = 40
  ∧ row <$> selectBest [oak_row; denver_row denver_text] query_1462 None (Some " ")
    = Some (denver_row denver_text).
Proof.
  destruct (blank_zip_hint_adds_40_to_every_row " " None
              [oak_row; denver_row denver_text] query_1462 None
              eq_refl eq_refl eq_refl) as (_ & Hrow & _ & Hsel).
  split.
  - destruct (Hrow oak_cells (Some "99 Oak Ave")) as (_ & _ & ->).
    vm_compute; reflexivity.
  - rewrite Hsel. vm_compute; reflexivity.
Defined.

(** ** The task list *)

Lemma checked_tasks_None addresses queries :
  Tasks.checked_tasks addresses queries = None
  ↔ Tasks.tasks addresses queries = [].
Proof.
  unfold Tasks.checked_tasks.
  destruct (Tasks.tasks addresses queries); simpl; split; done.
Qed.

(** The run is refused with the usage error exactly when neither [queries]
    nor [addresses] is an array with at least one element. *)
Theorem no_tasks_iff_no_array_with_elements addresses queries :
  Tasks.checked_tasks addresses queries = None
  ↔ (∀ l, queries = Tasks.Arr l → l = []) ∧ (∀ l, addresses = Tasks.Arr l → l = []).
Proof.
  rewrite checked_tasks_None. unfold Tasks.tasks.
  destruct queries as [| |[|q qs]]; simpl.
  all: destruct addresses as [| |[|a l]]; simpl.
  all: split; [intros H; split; intros ? [=]; subst; done|intros [Hq Ha]].
  all: try done.
  all: try (by specialize (Ha _ eq_refl)).
  all: by specialize (Hq _ eq_refl).
Qed.




(** ** The slug *)

Lemma underscore_word_char : Main.is_word_char "_" = true.
Proof. reflexivity. Qed.

Lemma replace_nonword_from_word_chars in_run s :
  JS.all_chars Main.is_word_char (Main.replace_nonword_from in_run s) = true.
Proof.
  revert in_run. induction s as [|c s IH]; intros in_run; simpl; [done|].
  destruct (Main.is_word_char c) eqn:Hc; simpl.
  - by rewrite Hc, IH.
  - destruct in_run; simpl; by rewrite ?IH.
Qed.

Lemma replace_nonword_from_id in_run s :
  JS.all_chars Main.is_word_char s = true →
  Main.replace_nonword_from in_run s = s.
Proof.
  revert in_run. induction s as [|c s IH]; intros in_run Hs; simpl in *; [done|].
  apply andb_true_iff in Hs as [Hc Hs]. by rewrite Hc, IH.
Qed.

Lemma replace_nonword_from_app in_run u v :
  Main.replace_nonword_from in_run (u +:+ v)
  = Main.replace_nonword_from in_run u
    +:+ Main.replace_nonword_from (Main.in_run_after in_run u) v.
Proof.
  revert in_run. induction u as [|c u IH]; intros in_run; [done|].
  change (String c u +:+ v) with (String c (u +:+ v)). simpl.
  destruct (Main.is_word_char c); simpl.
  - by rewrite IH.
  - destruct in_run; by rewrite IH.
Qed.

Lemma replace_nonword_from_run in_run w v :
  JS.truthy_str w = true →
  JS.all_chars (λ c, negb (Main.is_word_char c)) w = true →
  Main.replace_nonword_from in_run (w +:+ v)
  = (if in_run then "" else "_") +:+ Main.replace_nonword_from true v.
Proof.
  revert in_run. induction w as [|c w IH]; intros in_run Hw Hww; [done|].
  simpl in Hww. apply andb_true_iff in Hww as [Hc Hww].
  apply negb_true_iff in Hc.
  change (String c w +:+ v) with (String c (w +:+ v)). simpl. rewrite Hc.
  destruct w as [|c' w].
  - by destruct in_run.
  - rewrite (IH true) by done. by destruct in_run.
Qed.

(** The slug of an address that is a string is never empty and holds word
    characters only. *)
Theorem slug_is_a_word (a : string) :
  ∃ s, Main.safe (Some a) = Some s
       ∧ JS.truthy_str s = true
       ∧ JS.all_chars Main.is_word_char s = true.
Proof.
  unfold Main.safe, Main.replace_nonword.
  pose proof (replace_nonword_from_word_chars false a) as Hall.
  destruct (Main.replace_nonword_from false a) as [|c s] eqn:Hs.
  - by eexists.
  - by eexists.
Qed.

(** Taking the slug of a slug changes nothing. *)
Theorem slug_idempotent (a s : string) :
  Main.safe (Some a) = Some s → Main.safe (Some s) = Some s.
Proof.
  unfold Main.safe, Main.replace_nonword.
  pose proof (replace_nonword_from_word_chars false a) as Hall.
  destruct (Main.replace_nonword_from false a) as [|c r]; simpl JS.truthy_str.
  - intros [= <-]. reflexivity.
  - intros [= <-]. by rewrite replace_nonword_from_id.
Qed.

Lemma slug_idempotent_witness :
  Main.safe (Some "1462 22nd St, Denver") = Some "1462_22nd_St_Denver"
  ∧ Main.safe (Some "1462_22nd_St_Denver") = Some "1462_22nd_St_Denver".
Proof.
  split; [reflexivity|].
  exact (slug_idempotent "1462 22nd St, Denver" "1462_22nd_St_Denver" eq_refl).
Defined.

(** Two addresses that differ only in what stands between two words
    (whichever non-word characters, and how many) get the same slug, and so
    the same file names. *)
Theorem slug_ignores_separators (u w1 w2 v : string) :
  JS.truthy_str w1 = true →
  JS.all_chars (λ c, negb (Main.is_word_char c)) w1 = true →
  JS.truthy_str w2 = true →
  JS.all_chars (λ c, negb (Main.is_word_char c)) w2 = true →
  Main.safe (Some (u +:+ w1 +:+ v)) = Main.safe (Some (u +:+ w2 +:+ v)).
Proof.
  intros H1 H1' H2 H2'. unfold Main.safe, Main.replace_nonword.
  rewrite (replace_nonword_from_app false u (w1 +:+ v)),
    (replace_nonword_from_app false u (w2 +:+ v)).
  by rewrite !replace_nonword_from_run.
Qed.

Lemma slug_ignores_separators_witness :
  Main.safe (Some "12 Oak Ave") = Main.safe (Some "12, Oak Ave")
  ∧ "12 Oak Ave" ≠ "12, Oak Ave".
Proof.
  split; [|discriminate].
  exact (slug_ignores_separators "12" " " ", " "Oak Ave"
           eq_refl eq_refl eq_refl eq_refl).
Defined.

(** ** Reading the rows *)

Lemma trimEnd_idemp s : JS.trimEnd (JS.trimEnd s) = JS.trimEnd s.
Proof.
  induction s as [|c s IH]; simpl; [done|].
  destruct (JS.trimEnd s) as [|c' r] eqn:Hr.
  - destruct (JS.is_space c) eqn:Hc; simpl; [done|]. by rewrite Hc.
  - simpl. simpl in IH. by rewrite IH.
Qed.

Lemma trimStart_starts_nonspace s :
  match JS.trimStart s with
  | EmptyString => True
  | String c _ => JS.is_space c = false
  end.
Proof.
  induction s as [|c s IH]; simpl; [done|].
  destruct (JS.is_space c) eqn:Hc; [done|]. by rewrite Hc.
Qed.

Lemma trimStart_trimEnd_nonspace s :
  match s with EmptyString => True | String c _ => JS.is_space c = false end →
  JS.trimStart (JS.trimEnd s) = JS.trimEnd s.
Proof.
  destruct s as [|c s]; [done|]. intros Hc.
  rewrite trimEnd_nonspace by done. simpl. by rewrite Hc.
Qed.

Lemma trim_idemp s : JS.trim (JS.trim s) = JS.trim s.
Proof.
  unfold JS.trim.
  rewrite (trimStart_trimEnd_nonspace (JS.trimStart s)) by apply trimStart_starts_nonspace.
  apply trimEnd_idemp.
Qed.

Lemma trimEnd_blank s :
  JS.truthy_str (JS.trimEnd s) = negb (JS.all_chars JS.is_space s).
Proof.
  induction s as [|c s IH]; simpl; [done|].
  destruct (JS.trimEnd s) as [|c' r]; simpl in *.
  - apply (f_equal negb) in IH. rewrite negb_involutive in IH. simpl in IH.
    rewrite <- IH. by destruct (JS.is_space c).
  - apply (f_equal negb) in IH. rewrite negb_involutive in IH. simpl in IH.
    rewrite <- IH. by rewrite andb_false_r.
Qed.

Lemma all_space_trimStart s :
  JS.all_chars JS.is_space (JS.trimStart s) = JS.all_chars JS.is_space s.
Proof.
  induction s as [|c s IH]; simpl; [done|].
  destruct (JS.is_space c) eqn:Hc; simpl; [done|]. by rewrite Hc.
Qed.

(** A trimmed string is non-empty exactly when the string holds a character
    that is no white space. *)
Lemma trim_blank s :
  JS.truthy_str (JS.trim s) = negb (JS.all_chars JS.is_space s).
Proof. unfold JS.trim. by rewrite trimEnd_blank, all_space_trimStart. Qed.

Lemma pick_trimmed tds idx : JS.trim (Main.pick tds idx) = Main.pick tds idx.
Proof.
  unfold Main.pick. destruct idx as [i|]; [|done].
  destruct (tds !! i); [|done]. apply trim_idemp.
Qed.

Lemma present_pick tds idx :
  present (Some (Main.pick tds idx)) = JS.truthy_str (Main.pick tds idx).
Proof.
  unfold present. rewrite pick_trimmed. by destruct (Main.pick tds idx).
Qed.

Lemma pick_nonempty tds idx :
  JS.truthy_str (Main.pick tds idx) = true
  ↔ ∃ (i : nat) (td : string),
      idx = Some i ∧ tds !! i = Some td ∧ JS.all_chars JS.is_space td = false.
Proof.
  unfold Main.pick. split.
  - destruct idx as [i|]; [|done]. destruct (tds !! i) as [td|] eqn:Htd; [|done].
    rewrite or_empty_Some, trim_blank. intros H%negb_true_iff.
    by exists i, td.
  - intros (i & td & -> & -> & Htd).
    by rewrite or_empty_Some, trim_blank, Htd.
Qed.

(** The reader keeps the first 100 rows of the table, in order, and no
    more. *)
Theorem read_rows_first_100 (mapIn : gmap string nat) (trs : list Main.Tr) :
  length (Main.read_rows mapIn trs) = (length trs `min` 100)%nat
  ∧ ∀ i : nat,
      Main.read_rows mapIn trs !! i
      = if decide (i < 100)%nat then Main.read_row mapIn <$> trs !! i else None.
Proof.
  unfold Main.read_rows. split.
  - rewrite length_map, length_take. lia.
  - intros i.
    change (map (Main.read_row mapIn) (take 100 trs))
      with (Main.read_row mapIn <$> take 100 trs).
    rewrite list_lookup_fmap, lookup_take. by case_decide.
Qed.


(** A row that was read earns the email bonus exactly when the header map
    has an email column, the row reaches it, and the cell there holds more
    than white space; likewise for the phone bonus. *)
Theorem contact_bonus_of_read_row (mapIn : gmap string nat) (tr : Main.Tr) :
  (emailPts (cells (Main.read_row mapIn tr)) = 3
   ↔ ∃ (i : nat) (td : string),
       mapIn !! "email" = Some i ∧ Main.tds tr !! i = Some td
       ∧ JS.all_chars JS.is_space td = false)
  ∧ (phonePts (cells (Main.read_row mapIn tr)) = 3
     ↔ ∃ (i : nat) (td : string),
         mapIn !! "phone" = Some i ∧ Main.tds tr !! i = Some td
         ∧ JS.all_chars JS.is_space td = false).
Proof.
  unfold emailPts, phonePts, Main.read_row. cbn [cells email phone].
  rewrite !present_pick.
  split; rewrite <- pick_nonempty;
    destruct (JS.truthy_str (Main.pick _ _)); split; done.
Qed.

(** ** The index that is clicked *)

Lemma scored_objects_eq rowsData parsed city zip :
  Main.scored_objects rowsData parsed city zip
  = JS.sort (desc (λ o : nat * ScoredRow, score (result (snd o))))
            (imap (λ i r, (i, score_one parsed city zip r)) rowsData).
Proof. reflexivity. Qed.

Lemma snd_imap_pair {A B} (h : A → B) (l : list A) :
  snd <$> imap (λ i r, (i, h r)) l = h <$> l.
Proof.
  rewrite fmap_imap. rewrite <- imap_const. by apply imap_ext.
Qed.

(** Forgetting the identities gives back the ranking [scored]. *)
Lemma snd_scored_objects rowsData parsed city zip :
  snd <$> Main.scored_objects rowsData parsed city zip
  = scored rowsData parsed city zip.
Proof.
  rewrite scored_objects_eq, scored_eq.
  rewrite <- (snd_imap_pair (score_one parsed city zip) rowsData).
  symmetry. by apply (sort_map snd).
Qed.

Lemma scored_objects_length rowsData parsed city zip :
  length (Main.scored_objects rowsData parsed city zip) = length rowsData.
Proof. by rewrite scored_objects_eq, sort_length, length_imap. Qed.

Lemma selectBest_head rowsData parsed city zip :
  selectBest rowsData parsed city zip = head (scored rowsData parsed city zip).
Proof. by destruct rowsData. Qed.

Lemma bestIndex_cons r0 rows parsed city zip :
  Main.bestIndex (r0 :: rows) parsed city zip = Some 0.
Proof.
  unfold Main.bestIndex.
  pose proof (scored_objects_length (r0 :: rows) parsed city zip) as Hlen.
  destruct (Main.scored_objects (r0 :: rows) parsed city zip) as [|o l]; [done|].
  unfold Main.indexOf. simpl. by rewrite Nat.eqb_refl.
Qed.

(** Whatever the scores, the index used for the click is 0: [best] is taken
    from the sorted array and looked up in that same array, so the row
    handle that is clicked is the first row of the table. *)
Theorem click_index_is_always_zero {H : Type} (rowHandles : list H)
    (r0 : Row) (rows : list Row) parsed city zip :
  Main.bestIndex (r0 :: rows) parsed city zip = Some 0
  ∧ Main.clicked rowHandles (r0 :: rows) parsed city zip = rowHandles !! 0%nat.
Proof.
  split; [apply bestIndex_cons|].
  unfold Main.clicked. by rewrite bestIndex_cons.
Qed.

(** The object at the head of the sorted array was created for the earliest
    row with the highest score. *)
Lemma head_scored_objects r0 rows parsed city zip :
  ∃ (i : nat) (r : Row),
    (r0 :: rows) !! i = Some r
    ∧ head (Main.scored_objects (r0 :: rows) parsed city zip)
      = Some (i, score_one parsed city zip r)
    ∧ (∀ (j : nat) (r' : Row), (r0 :: rows) !! j = Some r' →
         row_score parsed city zip r' ≤ row_score parsed city zip r).
Proof.
  rewrite scored_objects_eq.
  destruct (imap (λ i r, (i, score_one parsed city zip r)) (r0 :: rows))
    as [|o l] eqn:Himap; [done|].
  destruct (head_sort_first_max (λ o : nat * ScoredRow, score (result (snd o))) o l)
    as (i & b & Hi & Hhd & Hmax & _).
  rewrite <- Himap in Hi, Hmax. rewrite list_lookup_imap in Hi.
  destruct ((r0 :: rows) !! i) as [r|] eqn:Hr; [|done].
  injection Hi as <-.
  exists i, r. split_and!; [done|done|].
  intros j r' Hj.
  apply (Hmax j (j, score_one parsed city zip r')).
  by rewrite list_lookup_imap, Hj.
Qed.

(** When the one row with the highest score stands at position [i] of the
    table, that row is the one selected and reported, while the handle
    that is clicked is still the one at position 0. *)
Theorem best_row_is_not_the_row_clicked {H : Type} (rowHandles : list H)
    (rowsData : list Row) parsed city zip (i : nat) (r : Row) :
  rowsData !! i = Some r →
  (∀ (j : nat) (r' : Row), rowsData !! j = Some r' → j ≠ i →
     row_score parsed city zip r' < row_score parsed city zip r) →
  head (Main.scored_objects rowsData parsed city zip)
  = Some (i, score_one parsed city zip r)
  ∧ selectBest rowsData parsed city zip = Some (score_one parsed city zip r)
  ∧ Main.bestIndex rowsData parsed city zip = Some 0
  ∧ Main.clicked rowHandles rowsData parsed city zip = rowHandles !! 0%nat.
Proof.
  intros Hi Hbest. destruct rowsData as [|r0 rows]; [done|].
  destruct (head_scored_objects r0 rows parsed city zip)
    as (i' & r' & Hi' & Hhd & Hmax).
  assert (i' = i) as ->.
  { destruct (decide (i' = i)) as [|Hne]; [done|].
    specialize (Hbest i' r' Hi' Hne). specialize (Hmax i r Hi). lia. }
  assert (r' = r) as -> by congruence.
  split_and!.
  - done.
  - rewrite selectBest_head, <- snd_scored_objects.
    destruct (Main.scored_objects (r0 :: rows) parsed city zip); simplify_eq/=; done.
  - apply bestIndex_cons.
  - unfold Main.clicked. by rewrite bestIndex_cons.
Qed.

Lemma best_row_is_not_the_row_clicked_witness :
  selectBest [oak_row; denver_row denver_text] query_1462 None None
  = Some (score_one query_1462 None None (denver_row denver_text))
  ∧ Main.clicked ["first tr"; "second tr"] [oak_row; denver_row denver_text]
      query_1462 None None = Some "first tr".
Proof.
  destruct (best_row_is_not_the_row_clicked ["first tr"; "second tr"]
              [oak_row; denver_row denver_text] query_1462 None None
              1 (denver_row denver_text)) as (_ & Hsel & _ & Hclick).
  - reflexivity.
  - intros [|[|j]] r' Hj Hne; simplify_eq/=. vm_compute. reflexivity.
  - split; [exact Hsel|exact Hclick].
Defined.

(** ** The preview *)

Lemma descending_app {A} (key : A → Z) (l1 l2 : list A) :
  descending key (l1 ++ l2) →
  descending key l1
  ∧ ∀ a b, a ∈ l1 → b ∈ l2 → key b ≤ key a.
Proof.
  unfold descending. induction l1 as [|x l1 IH]; simpl; intros Hs.
  - split; [constructor|]. intros a b Ha. by apply elem_of_nil in Ha.
  - apply StronglySorted_inv in Hs as [Hs Hx].
    destruct (IH Hs) as [IH1 IH2].
    apply Forall_app in Hx as [Hx1 Hx2]. split.
    + by constructor.
    + intros a b Ha Hb. apply elem_of_cons in Ha as [->|Ha].
      * rewrite Forall_forall in Hx2. by apply Hx2.
      * by apply IH2.
Qed.

Lemma descending_fmap {A B} (key : A → Z) (key' : B → Z) (f : A → B) l :
  (∀ x, key' (f x) = key x) →
  descending key l → descending key' (f <$> l).
Proof.
  intros Hf. unfold descending. induction l as [|x l IH]; intros Hs.
  - constructor.
  - apply StronglySorted_inv in Hs as [Hs Hx]. rewrite fmap_cons.
    constructor; [by apply IH|].
    rewrite Forall_fmap. eapply Forall_impl; [exact Hx|].
    simpl. intros y Hy. by rewrite !Hf.
Qed.

Lemma scored_descending rowsData parsed city zip :
  descending (λ a : ScoredRow, score (result a)) (scored rowsData parsed city zip).
Proof. rewrite scored_eq. apply sort_descending. Qed.

Lemma scored_length rowsData parsed city zip :
  length (scored rowsData parsed city zip) = length rowsData.
Proof. by rewrite scored_eq, sort_length, length_fmap. Qed.

(** The preview lists the three highest scores (all of them when the table
    has fewer rows), best first: no row left out scores more than a row
    listed, and the first entry is the chosen record. *)
Theorem preview_holds_the_top_three rowsData parsed city zip :
  length (Main.tablePreviewTop3 rowsData parsed city zip)
  = (length rowsData `min` 3)%nat
  ∧ descending Main.p_score (Main.tablePreviewTop3 rowsData parsed city zip)
  ∧ (∀ (p : Main.Preview) (s : ScoredRow),
       p ∈ Main.tablePreviewTop3 rowsData parsed city zip →
       s ∈ drop 3 (scored rowsData parsed city zip) →
       score (result s) ≤ Main.p_score p)
  ∧ head (Main.tablePreviewTop3 rowsData parsed city zip)
    = Main.chosen rowsData parsed city zip.
Proof.
  unfold Main.tablePreviewTop3, Main.chosen.
  change (map Main.preview_of (take 3 (scored rowsData parsed city zip)))
    with (Main.preview_of <$> take 3 (scored rowsData parsed city zip)).
  pose proof (scored_descending rowsData parsed city zip) as Hdesc.
  rewrite <- (take_drop 3 (scored rowsData parsed city zip)) in Hdesc.
  apply descending_app in Hdesc as [Htake Hcross].
  split_and!.
  - rewrite length_fmap, length_take, scored_length. lia.
  - by apply (descending_fmap (λ a : ScoredRow, score (result a))).
  - intros p s Hp Hs. apply list_elem_of_fmap in Hp as (a & -> & Ha).
    by apply Hcross.
  - rewrite selectBest_head.
    by destruct (scored rowsData parsed city zip).
Qed.

(** ** The customer id *)

Lemma capture_id_Some s id :
  Main.capture_id s = Some id →
  JS.truthy_str id = true ∧ JS.all_chars Main.is_id_char id = true
  ∧ JS.startsWith s id = true.
Proof.
  unfold Main.capture_id.
  destruct (span_app Main.is_id_char s) as [Hs Hall].
  destruct (JS.truthy_str (fst (JS.span Main.is_id_char s))) eqn:Hne; [|done].
  intros [= <-]. split_and!; [done|done|].
  rewrite Hs at 1. generalize (snd (JS.span Main.is_id_char s)).
  generalize (fst (JS.span Main.is_id_char s)). clear.
  intros u v. induction u as [|c u IH]; simpl; [by destruct v|].
  rewrite ?app_String. simpl. by destruct (ascii_dec c c).
Qed.

Lemma includes_startsWith s p : JS.startsWith s p = true → JS.includes s p = true.
Proof. intros H. destruct s; simpl in *; by rewrite H. Qed.

Lemma includes_String c s p : JS.includes s p = true → JS.includes (String c s) p = true.
Proof. intros H. simpl. rewrite H. apply orb_true_r. Qed.

Lemma includes_drop_chars n s p :
  JS.includes (Main.drop_chars n s) p = true → JS.includes s p = true.
Proof.
  revert s. induction n as [|n IH]; intros s; [done|].
  destruct s as [|c s]; [done|]. simpl Main.drop_chars.
  intros H. by apply includes_String, IH.
Qed.

Lemma starts_with_ci_lower s p :
  Main.starts_with_ci s p = JS.startsWith (JS.toLowerCase s) p.
Proof.
  revert s. induction p as [|a p IH]; intros s; [by destruct s|].
  destruct s as [|b s]; [done|]. simpl.
  destruct (ascii_dec (JS.lower_char b) a) as [<-|Hne].
  - destruct (ascii_dec _ _); [apply IH|done].
  - destruct (ascii_dec _ _) as [->|]; done.
Qed.

Lemma customerId_here_Some s id :
  Main.customerId_here s = Some id →
  JS.truthy_str id = true ∧ JS.all_chars Main.is_id_char id = true
  ∧ JS.includes s id = true
  ∧ (Main.starts_with_ci s "id=" = true
     ∨ Main.starts_with_ci s "/customer/view" = true).
Proof.
  unfold Main.customerId_here.
  destruct (Main.starts_with_ci s "id=") eqn:H1.
  - intros (? & ? & Hst)%capture_id_Some. split_and!; [done|done| |by left].
    by eapply includes_drop_chars, includes_startsWith.
  - destruct (Main.starts_with_ci s "/customer/view") eqn:H2; [|done].
    intros Hcap.
    assert (∃ r, Main.capture_id r = Some id
                 ∧ (JS.includes r id = true → JS.includes s id = true))
      as (r' & Hn & Hin).
    { destruct (Main.drop_chars 14 s) as [|c r] eqn:Hd.
      - exists "". split; [done|]. rewrite <- Hd. apply includes_drop_chars.
      - destruct (ascii_dec c "/") as [->|Hc].
        + exists r. split; [done|]. intros Hr.
          apply (includes_drop_chars 14). rewrite Hd. by apply includes_String.
        + exists (String c r). split; [done|]. rewrite <- Hd.
          apply includes_drop_chars. }
    apply capture_id_Some in Hn as (? & ? & Hst).
    split_and!; [done|done| |by right].
    by apply Hin, includes_startsWith.
Qed.

Lemma customerId_Some url id :
  Main.customerId url = Some id →
  JS.truthy_str id = true ∧ JS.all_chars Main.is_id_char id = true
  ∧ JS.includes url id = true
  ∧ (JS.includes (JS.toLowerCase url) "id=" = true
     ∨ JS.includes (JS.toLowerCase url) "/customer/view" = true).
Proof.
  induction url as [|c url IH].
  - intros H. by vm_compute in H.
  - simpl Main.customerId.
    destruct (Main.customerId_here (String c url)) eqn:Hh.
    + intros [= ->]. apply customerId_here_Some in Hh as (? & ? & ? & Hm).
      split_and!; try done.
      rewrite !starts_with_ci_lower in Hm.
      destruct Hm as [Hm|Hm]; [left|right]; by apply includes_startsWith.
    + intros (? & ? & ? & Hm)%IH. split_and!; try done.
      * by apply includes_String.
      * simpl JS.toLowerCase.
        destruct Hm as [Hm|Hm]; [left|right]; by apply includes_String.
Qed.

(** A customer id, when one is found, is a non-empty piece of the URL made
    of letters, digits, underscores and hyphens, and the URL then holds
    [id=] or [/customer/view] in some letter case; a URL without either
    yields no id. *)
Theorem customerId_is_an_id_from_the_url (url : string) :
  match Main.customerId url with
  | Some id =>
      JS.truthy_str id = true
      ∧ JS.all_chars Main.is_id_char id = true
      ∧ JS.includes url id = true
      ∧ (JS.includes (JS.toLowerCase url) "id=" = true
         ∨ JS.includes (JS.toLowerCase url) "/customer/view" = true)
  | None => True
  end.
Proof.
  destruct (Main.customerId url) as [id|] eqn:H; [|done].
  by apply customerId_Some.
Qed.

Lemma append_assoc_str (a b c : string) : (a +:+ b) +:+ c = a +:+ (b +:+ c).
Proof. induction a as [|x a IH]; [done|]. by rewrite !app_String, IH. Qed.

Lemma length_append_str (a b : string) :
  String.length (a +:+ b) = (String.length a + String.length b)%nat.
Proof. induction a as [|x a IH]; [done|]. rewrite app_String. simpl. by rewrite IH. Qed.

Lemma starts_with_ci_app s y p :
  (String.length p ≤ String.length s)%nat →
  Main.starts_with_ci (s +:+ y) p = Main.starts_with_ci s p.
Proof.
  revert s. induction p as [|a p IH]; intros s Hlen; [by destruct s, y|].
  destruct s as [|b s]; simpl in Hlen; [lia|].
  rewrite app_String. simpl.
  destruct (ascii_dec (JS.lower_char b) a); [|done]. apply IH. lia.
Qed.

Lemma customerId_here_view x :
  Main.customerId_here ("/customer/view/" +:+ x) = Main.capture_id x.
Proof. reflexivity. Qed.

Lemma customerId_String c s :
  Main.customerId (String c s)
  = match Main.customerId_here (String c s) with
    | Some id => Some id
    | None => Main.customerId s
    end.
Proof. reflexivity. Qed.

Lemma capture_id_run id rest :
  JS.truthy_str id = true →
  JS.all_chars Main.is_id_char id = true →
  match rest with EmptyString => True | String c _ => Main.is_id_char c = false end →
  Main.capture_id (id +:+ rest) = Some id.
Proof.
  intros Hne Hall Hrest. unfold Main.capture_id.
  rewrite (span_run Main.is_id_char id rest) by done. simpl. by rewrite Hne.
Qed.

(** The id of a detail URL of the form [.../customer/view/<id>] comes back
    unchanged, provided nothing before [/customer/view/] already looks like
    one of the two markers and the id ends where the id characters end. *)
Theorem customerId_of_view_url (pre id rest : string) :
  Main.no_marker_in pre "/customer/view/" = true →
  JS.truthy_str id = true →
  JS.all_chars Main.is_id_char id = true →
  match rest with EmptyString => True | String c _ => Main.is_id_char c = false end →
  Main.customerId (pre +:+ "/customer/view/" +:+ id +:+ rest) = Some id.
Proof.
  intros Hpre Hne Hall Hrest. induction pre as [|c pre IH].
  - rewrite app_empty.
    assert (Main.customerId_here ("/customer/view/" +:+ id +:+ rest) = Some id) as Hh
      by (rewrite customerId_here_view; by apply capture_id_run).
    change ("/customer/view/" +:+ id +:+ rest)
      with (String "/" ("customer/view/" +:+ id +:+ rest)) in *.
    by rewrite customerId_String, Hh.
  - change (Main.no_marker_in (String c pre) "/customer/view/")
      with (negb (Main.starts_with_ci (String c pre +:+ "/customer/view/") "id=")
            && negb (Main.starts_with_ci (String c pre +:+ "/customer/view/")
                       "/customer/view")
            && Main.no_marker_in pre "/customer/view/") in Hpre.
    apply andb_true_iff in Hpre as [Hpre Hrec].
    apply andb_true_iff in Hpre as [H1 H2].
    apply negb_true_iff in H1, H2.
    rewrite app_String, customerId_String.
    assert (Main.customerId_here
              (String c (pre +:+ "/customer/view/" +:+ id +:+ rest)) = None) as ->.
    { unfold Main.customerId_here.
      replace (String c (pre +:+ "/customer/view/" +:+ id +:+ rest))
        with ((String c pre +:+ "/customer/view/") +:+ (id +:+ rest))
        by (by rewrite append_assoc_str).
      rewrite (starts_with_ci_app (String c pre +:+ "/customer/view/") _ "id="),
        (starts_with_ci_app (String c pre +:+ "/customer/view/") _ "/customer/view"),
        H1, H2; [done|..];
        rewrite length_append_str; simpl; lia. }
    by apply IH.
Qed.

Lemma customerId_of_view_url_witness :
  Main.customerId "https://admin.servicefusion.com/customer/view/12345?tab=jobs"
  = Some "12345".
Proof.
  exact (customerId_of_view_url "https://admin.servicefusion.com" "12345" "?tab=jobs"
           eq_refl eq_refl eq_refl eq_refl).
Defined.

(** ** The regular expression matcher *)

Lemma append_empty_r (s : string) : s +:+ "" = s.
Proof. induction s as [|c s IH]; [done|]. by rewrite app_String, IH. Qed.

Lemma append_eq_empty (a b : string) : a +:+ b = "" → a = "" ∧ b = "".
Proof. destruct a; [done|]. by rewrite app_String. Qed.

Lemma append_eq_String (a b : string) c s :
  a +:+ b = String c s →
  (a = "" ∧ b = String c s) ∨ (∃ a', a = String c a' ∧ s = a' +:+ b).
Proof.
  destruct a as [|x a]; [by left|]. rewrite app_String. intros [= -> <-].
  right. by exists a.
Qed.

Lemma nullable_matches r : Re.nullable r = true ↔ Re.matches r "".
Proof.
  split.
  - induction r as [| | | |r1 IH1 r2 IH2|r1 IH1 r2 IH2|r IH|r IH]; simpl; try done.
    + intros _. constructor.
    + intros [H1 H2]%andb_true_iff.
      change "" with ("" +:+ ""). constructor; auto.
    + intros [H|H]%orb_true_iff; [apply Re.m_alt_l|apply Re.m_alt_r]; auto.
    + intros _. constructor.
    + intros _. constructor.
  - intros H. remember "" as s eqn:Hs.
    induction H as [|c x Hc|x Hx|r1 r2 s1 s2 _ IH1 _ IH2|r1 r2 s _ IH|r1 r2 s _ IH
                   |r|r s1 s2 _ _ _ _|r|r s _ _]; simpl; try done.
    + apply append_eq_empty in Hs as [-> ->]. by rewrite IH1, IH2.
    + by rewrite IH.
    + rewrite IH by done. apply orb_true_r.
Qed.

Lemma matches_deriv x r s : Re.matches (Re.deriv x r) s → Re.matches r (String x s).
Proof.
  revert s.
  induction r as [| |c| |r1 IH1 r2 IH2|r1 IH1 r2 IH2|r IH|r IH]; simpl; intros s H.
  - inversion H.
  - inversion H.
  - destruct (Re.chr_matches c x) eqn:Hc; inversion H; subst. by constructor.
  - destruct (JS.is_space x) eqn:Hx; inversion H; subst. by constructor.
  - inversion H as [| | | |? ? ? Hl|? ? ? Hr| | | |]; subst.
    + inversion Hl as [| | |? ? s1 s2 H1 H2| | | | | |]; subst.
      rewrite <- app_String. constructor; auto.
    + destruct (Re.nullable r1) eqn:Hn; [|inversion Hr].
      change (String x s) with ("" +:+ String x s).
      constructor; [by apply nullable_matches|auto].
  - inversion H; subst; [apply Re.m_alt_l|apply Re.m_alt_r]; auto.
  - inversion H as [| | |? ? s1 s2 H1 H2| | | | | |]; subst.
    rewrite <- app_String. constructor; auto.
  - apply Re.m_opt_some. auto.
Qed.

Lemma deriv_matches x r s : Re.matches r (String x s) → Re.matches (Re.deriv x r) s.
Proof.
  intros H. remember (String x s) as t eqn:Ht. revert s Ht.
  induction H as [|c y Hc|y Hy|r1 r2 s1 s2 H1 IH1 H2 IH2|r1 r2 s' _ IH|r1 r2 s' _ IH
                 |r|r s1 s2 H1 IH1 H2 IH2|r|r s' _ IH]; intros s Ht; simpl; try done.
  - injection Ht as -> <-. rewrite Hc. constructor.
  - injection Ht as -> <-. rewrite Hy. constructor.
  - apply append_eq_String in Ht as [[-> ->]|(a' & -> & ->)].
    + apply Re.m_alt_r. apply nullable_matches in H1. rewrite H1. by apply IH2.
    + apply Re.m_alt_l. constructor; [by apply IH1|done].
  - apply Re.m_alt_l. by apply IH.
  - apply Re.m_alt_r. by apply IH.
  - apply append_eq_String in Ht as [[-> ->]|(a' & -> & ->)].
    + by apply IH2.
    + constructor; [by apply IH1|done].
  - by apply IH.
Qed.

(** The matcher finds a prefix exactly when some prefix matches. *)
Lemma prefix_match_matches r s :
  Re.prefix_match r s = true ↔ ∃ u v, s = u +:+ v ∧ Re.matches r u.
Proof.
  revert r. induction s as [|x s IH]; intros r; simpl.
  - rewrite orb_false_r, nullable_matches. split.
    + intros H. by exists "", "".
    + intros (u & v & Huv & H). symmetry in Huv.
      by apply append_eq_empty in Huv as [-> ->].
  - rewrite orb_true_iff, nullable_matches, IH. split.
    + intros [H|(u & v & -> & H)].
      * by exists "", (String x s).
      * exists (String x u), v. split; [done|]. by apply matches_deriv.
    + intros (u & v & Huv & H). symmetry in Huv.
      apply append_eq_String in Huv as [[-> ->]|(u' & -> & ->)].
      * by left.
      * right. exists u', v. split; [done|]. by apply deriv_matches.
Qed.

(** [test] succeeds exactly when some piece of the string matches. *)
Lemma test_matches r s :
  Re.test r s = true ↔ ∃ p u v, s = p +:+ u +:+ v ∧ Re.matches r u.
Proof.
  induction s as [|x s IH].
  - change (Re.test r "") with (Re.prefix_match r "" || false).
    rewrite orb_false_r, prefix_match_matches. split.
    + intros (u & v & -> & H). by exists "", u, v.
    + intros (p & u & v & Hs & H). symmetry in Hs.
      apply append_eq_empty in Hs as [-> Hs].
      apply append_eq_empty in Hs as [-> ->]. by exists "", "".
  - change (Re.test r (String x s))
      with (Re.prefix_match r (String x s) || Re.test r s).
    rewrite orb_true_iff, prefix_match_matches, IH. split.
    + intros [(u & v & -> & H)|(p & u & v & -> & H)].
      * by exists "", u, v.
      * by exists (String x p), u, v.
    + intros (p & u & v & Hs & H). symmetry in Hs.
      apply append_eq_String in Hs as [[-> Hs]|(p' & -> & ->)].
      * left. by exists u, v.
      * right. by exists p', u, v.
Qed.

Lemma prefix_match_Fail s : Re.prefix_match Re.Fail s = false.
Proof. induction s as [|x s IH]; simpl; done. Qed.

Lemma prefix_match_Alt r1 r2 s :
  Re.prefix_match (Re.Alt r1 r2) s = Re.prefix_match r1 s || Re.prefix_match r2 s.
Proof.
  revert r1 r2. induction s as [|x s IH]; intros r1 r2; simpl.
  - by rewrite !orb_false_r.
  - rewrite IH.
    destruct (Re.nullable r1), (Re.nullable r2),
      (Re.prefix_match (Re.deriv x r1) s); done.
Qed.

Lemma prefix_match_Seq_Fail r s : Re.prefix_match (Re.Seq Re.Fail r) s = false.
Proof.
  induction s as [|x s IH]; simpl; [done|].
  by rewrite prefix_match_Alt, IH, prefix_match_Fail.
Qed.

Lemma prefix_match_Seq_Eps r s :
  Re.prefix_match (Re.Seq Re.Eps r) s = Re.prefix_match r s.
Proof.
  destruct s as [|x s]; simpl; [done|].
  by rewrite prefix_match_Alt, prefix_match_Seq_Fail.
Qed.

Lemma test_Alt r1 r2 s :
  Re.test (Re.Alt r1 r2) s = Re.test r1 s || Re.test r2 s.
Proof.
  induction s as [|x s IH].
  - change (Re.test ?r "") with (Re.prefix_match r "" || false).
    rewrite prefix_match_Alt. by rewrite !orb_false_r.
  - change (Re.test ?r (String x s))
      with (Re.prefix_match r (String x s) || Re.test r s).
    rewrite prefix_match_Alt, IH.
    destruct (Re.prefix_match r1 (String x s)),
      (Re.prefix_match r2 (String x s)), (Re.test r1 s); done.
Qed.

(** A literal lower-case text is found as a prefix by the matcher exactly
    when the lower-cased string starts with it. *)
Lemma prefix_match_lit p s :
  JS.toLowerCase p = p →
  Re.prefix_match (Re.lit p) s = JS.startsWith (JS.toLowerCase s) p.
Proof.
  revert s. induction p as [|a p IH]; intros s Hp.
  - by destruct s.
  - injection Hp as Ha Hp. destruct s as [|x s]; [done|].
    simpl. rewrite prefix_match_Alt, prefix_match_Fail, orb_false_r.
    unfold Re.chr_matches. rewrite Ha.
    destruct (ascii_dec (JS.lower_char x) a) as [->|Hne].
    + destruct (ascii_dec _ _); [|done].
      rewrite prefix_match_Seq_Eps. by apply IH.
    + destruct (ascii_dec a (JS.lower_char x)) as [->|]; [done|].
      apply prefix_match_Seq_Fail.
Qed.

Lemma test_lit p s :
  JS.toLowerCase p = p →
  Re.test (Re.lit p) s = JS.includes (JS.toLowerCase s) p.
Proof.
  intros Hp. induction s as [|x s IH].
  - change (Re.test ?r "") with (Re.prefix_match r "" || false).
    rewrite prefix_match_lit by done. done.
  - change (Re.test ?r (String x s))
      with (Re.prefix_match r (String x s) || Re.test r s).
    rewrite prefix_match_lit, IH by done. done.
Qed.

(** ** The header map *)

Lemma header_step_lookup (m : gmap string nat) h i k :
  Header.header_step m h i !! k
  = if Header.sets_key k h then Some i else m !! k.
Proof.
  unfold Header.sets_key, Header.pattern_of.
  repeat case_decide; subst; unfold Header.header_step;
    destruct (Re.test Header.re_name h), (Re.test Header.re_serviceLocation h),
      (Re.test Header.re_city h), (Re.test Header.re_zip h),
      (Re.test Header.re_email h), (Re.test Header.re_phone h);
    rewrite ?lookup_insert; repeat case_decide; done.
Qed.

Lemma forEach_from_lookup hs : ∀ (i : nat) (m : gmap string nat) k (n : nat),
  Header.forEach_from i hs m !! k = Some n
  ↔ (∃ (j : nat) h,
       hs !! j = Some h ∧ n = (i + j)%nat ∧ Header.sets_key k h = true
       ∧ ∀ (j' : nat) h', hs !! j' = Some h' → (j < j')%nat →
                          Header.sets_key k h' = false)
    ∨ (m !! k = Some n
       ∧ ∀ (j : nat) h, hs !! j = Some h → Header.sets_key k h = false).
Proof.
  induction hs as [|h0 hs IH]; intros i m k n.
  - simpl. split.
    + intros H. right. split; [done|]. intros j h Hj. by destruct j.
    + intros [(j & h & Hj & _)|[H _]]; [by destruct j|done].
  - simpl Header.forEach_from. rewrite IH, header_step_lookup. split.
    + intros [(j & h & Hj & -> & Hk & Hlater)|[Hstep Hnone]].
      * left. exists (S j), h. split_and!; [done|lia|done|].
        intros [|j'] h' Hj' Hlt; [lia|]. apply (Hlater j' h' Hj'). lia.
      * destruct (Header.sets_key k h0) eqn:Hk0.
        -- injection Hstep as <-. left. exists 0%nat, h0.
           split_and!; [done|lia|done|].
           intros [|j'] h' Hj' Hlt; [lia|]. by apply (Hnone j' h').
        -- right. split; [done|]. intros [|j] h Hj; simplify_eq/=; eauto.
    + intros [(j & h & Hj & -> & Hk & Hlater)|[Hm Hnone]].
      * destruct j as [|j]; simplify_eq/=.
        -- right. rewrite Hk. split; [f_equal; lia|].
           intros j' h' Hj'. apply (Hlater (S j') h' Hj'). lia.
        -- left. exists j, h. split_and!; [done|lia|done|].
           intros j' h' Hj' Hlt. apply (Hlater (S j') h' Hj'). lia.
      * right. rewrite (Hnone 0%nat h0 eq_refl). split; [done|].
        intros j h Hj. by apply (Hnone (S j) h).
Qed.

(** The map sends a key to the position of the last header that matches the
    key's pattern, and holds no key without such a header; in particular
    every position in the map is that of an existing header. *)
Theorem header_map_points_at_last_match (ths : list string) (k : string) (i : nat) :
  snd (Header.getHeaderMap ths) !! k = Some i
  ↔ ∃ h, fst (Header.getHeaderMap ths) !! i = Some h
         ∧ Header.sets_key k h = true
         ∧ ∀ (j : nat) h', fst (Header.getHeaderMap ths) !! j = Some h' →
                           (i < j)%nat → Header.sets_key k h' = false.
Proof.
  unfold Header.getHeaderMap. simpl. rewrite forEach_from_lookup. split.
  - intros [(j & h & Hj & -> & Hk & Hlater)|[Hm _]]; [|done].
    exists h. by split_and!.
  - intros (h & Hi & Hk & Hlater). left. exists i, h. by split_and!.
Qed.

Lemma test_re_name h :
  Re.test Header.re_name h = JS.includes (JS.toLowerCase h) "name".
Proof.
  unfold Header.re_name. rewrite test_Alt, (test_lit "name") by done.
  destruct (JS.includes (JS.toLowerCase h) "name") eqn:Hin; [apply orb_true_r|].
  rewrite orb_false_r. apply not_true_is_false. intros Ht.
  apply test_matches in Ht as (p & u & v & -> & Hu).
  inversion Hu as [| | |? ? s1 s2 _ H2| | | | | |]; subst.
  inversion H2 as [| | |? ? s3 s4 _ H4| | | | | |]; subst.
  assert (Re.test (Re.lit "name") (p +:+ (s1 +:+ s3 +:+ s4) +:+ v) = true) as Hn.
  { apply test_matches. exists (p +:+ s1 +:+ s3), s4, v.
    split; [by rewrite !append_assoc_str|done]. }
  rewrite (test_lit "name") in Hn by done. congruence.
Qed.

(** The name, zip, email and phone columns are recognised by containment,
    whatever the letter case: any header that contains "name" counts as the
    name column (the "customer name" alternative adds nothing), any that
    contains "zip" or "post" as the zip column, and so on. *)
Theorem headers_are_recognised_by_containment (h : string) :
  Header.sets_key "name" h = JS.includes (JS.toLowerCase h) "name"
  ∧ Header.sets_key "zip" h
    = JS.includes (JS.toLowerCase h) "zip" || JS.includes (JS.toLowerCase h) "post"
  ∧ Header.sets_key "email" h = JS.includes (JS.toLowerCase h) "email"
  ∧ Header.sets_key "phone" h = JS.includes (JS.toLowerCase h) "phone".
Proof.
  split_and!.
  - apply test_re_name.
  - change (Header.sets_key "zip" h) with (Re.test Header.re_zip h).
    unfold Header.re_zip. by rewrite test_Alt, !test_lit.
  - change (Header.sets_key "email" h) with (Re.test Header.re_email h).
    by apply test_lit.
  - change (Header.sets_key "phone" h) with (Re.test Header.re_phone h).
    by apply test_lit.
Qed.

(** ** More about the ranking and the score *)

(** The ranking holds every scored row exactly once, highest score first. *)
Theorem ranking_is_a_sorted_permutation rowsData parsed city zip :
  scored rowsData parsed city zip ≡ₚ map (score_one parsed city zip) rowsData
  ∧ descending (λ a : ScoredRow, score (result a))
               (scored rowsData parsed city zip).
Proof.
  split; [|apply scored_descending].
  rewrite scored_eq. apply sort_perm.
Qed.

Lemma filter_length_le {A} (f : A → bool) (l : list A) :
  (length (List.filter f l) ≤ length l)%nat.
Proof. induction l as [|x l IH]; simpl; [done|]. destruct (f x); simpl; lia. Qed.

(** No row scores more than 116 (all five fixed signals) plus 5 per token
    of the query. *)
Theorem score_upper_bound cells rowText parsed cityHint zipHint :
  score (scoreRow cells rowText parsed cityHint zipHint)
  ≤ 116 + 5 * Z.of_nat (length (tokens parsed)).
Proof.
  rewrite scoreRow_score.
  pose proof (filter_length_le
                (token_hits (norm rowText)
                   (norm (Some (JS.or_empty (serviceLocation cells)))))
                (tokens parsed)) as Hlen.
  unfold housePts, zipPts, cityPts, streetPts, matching_tokens, emailPts, phonePts.
  repeat match goal with
         | |- context [if ?b then _ else _] => destruct b
         end; lia.
Qed.

Lemma same_words_norm_raw a b : same_words a b → norm (Some a) = norm (Some b).
Proof.
  intros H. unfold norm, JS.replace_spaces. rewrite !or_empty_Some.
  by rewrite (same_words_replace_spaces false a b H).
Qed.

Lemma same_words_truthy a b : same_words a b → JS.truthy_str a = JS.truthy_str b.
Proof.
  intros H. apply same_words_empty in H.
  destruct a, b; [done| | |done].
  - destruct H as [H _]. by specialize (H eq_refl).
  - destruct H as [_ H]. by specialize (H eq_refl).
Qed.

(** The row text and the two hints count only up to letter case and the
    length of white space runs: changing them within these limits changes
    neither the score nor the breakdown. *)
Theorem scoring_ignores_case_and_spacing cells parsed (t1 t2 c1 c2 z1 z2 : string) :
  same_words t1 t2 → same_words c1 c2 → same_words z1 z2 →
  scoreRow cells (Some t1) parsed (Some c1) (Some z1)
  = scoreRow cells (Some t2) parsed (Some c2) (Some z2).
Proof.
  intros Ht Hc Hz. unfold scoreRow.
  rewrite (same_words_norm_raw t1 t2 Ht), (same_words_norm_raw c1 c2 Hc),
    (same_words_norm_raw z1 z2 Hz).
  unfold JS.truthy.
  by rewrite (same_words_truthy c1 c2 Hc), (same_words_truthy z1 z2 Hz).
Qed.

Lemma scoring_ignores_case_and_spacing_witness :
  scoreRow denver_cells (Some "1462  22ND St") query_1462 (Some "DENVER") (Some "")
  = scoreRow denver_cells (Some "1462 22nd st") query_1462 (Some "denver") (Some "").
Proof.
  apply scoring_ignores_case_and_spacing.
  - do 4 (apply sw_char; [reflexivity|reflexivity|]).
    apply (sw_space "  " " " "22ND St" "22nd st"); try reflexivity.
    do 4 (apply sw_char; [reflexivity|reflexivity|]).
    apply (sw_space " " " " "St" "st"); try reflexivity.
    do 2 (apply sw_char; [reflexivity|reflexivity|]). apply sw_end.
  - do 6 (apply sw_char; [reflexivity|reflexivity|]). apply sw_end.
  - apply sw_end.
Defined.

(** ** The normal form computed by [norm] *)

Lemma toLowerCase_idemp s : JS.toLowerCase (JS.toLowerCase s) = JS.toLowerCase s.
Proof. induction s as [|c s IH]; simpl; [done|]. by rewrite lower_char_idemp, IH. Qed.

Lemma toLowerCase_replace_spaces_from b s :
  JS.toLowerCase (JS.replace_spaces_from b s)
  = JS.replace_spaces_from b (JS.toLowerCase s).
Proof.
  revert b. induction s as [|c s IH]; intros b; simpl; [done|].
  rewrite is_space_lower_char. destruct (JS.is_space c); simpl.
  - destruct b; simpl; by rewrite IH.
  - by rewrite IH.
Qed.

Lemma toLowerCase_trimStart s :
  JS.toLowerCase (JS.trimStart s) = JS.trimStart (JS.toLowerCase s).
Proof.
  induction s as [|c s IH]; simpl; [done|].
  rewrite is_space_lower_char. by destruct (JS.is_space c).
Qed.

Lemma toLowerCase_trimEnd s :
  JS.toLowerCase (JS.trimEnd s) = JS.trimEnd (JS.toLowerCase s).
Proof.
  induction s as [|c s IH]; simpl; [done|].
  rewrite <- IH, is_space_lower_char.
  destruct (JS.trimEnd s); simpl; [by destruct (JS.is_space c)|done].
Qed.

Lemma toLowerCase_trim s : JS.toLowerCase (JS.trim s) = JS.trim (JS.toLowerCase s).
Proof. unfold JS.trim. by rewrite toLowerCase_trimEnd, toLowerCase_trimStart. Qed.

Lemma replace_spaces_from_collapsed b s :
  collapsed b (JS.replace_spaces_from b s) = true.
Proof.
  revert b. induction s as [|c s IH]; intros b; simpl; [done|].
  destruct (JS.is_space c) eqn:Hc.
  - destruct b; [apply IH|]. simpl. apply IH.
  - simpl. rewrite Hc. apply IH.
Qed.

Lemma replace_spaces_from_id b s :
  collapsed b s = true → JS.replace_spaces_from b s = s.
Proof.
  revert b. induction s as [|c s IH]; intros b; simpl; [done|].
  destruct (JS.is_space c).
  - destruct (ascii_dec c " ") as [->|]; [|done]. destruct b; [done|].
    simpl. intros H. by rewrite IH.
  - intros H. by rewrite IH.
Qed.

Lemma collapsed_trimStart b b' s :
  collapsed b s = true → collapsed b' (JS.trimStart s) = true.
Proof.
  revert b. induction s as [|c s IH]; intros b; simpl; [done|].
  destruct (JS.is_space c) eqn:Hc.
  - intros [_ H]%andb_true_iff. by eapply IH.
  - simpl. by rewrite Hc.
Qed.

Lemma collapsed_trimEnd b s :
  collapsed b s = true → collapsed b (JS.trimEnd s) = true.
Proof.
  revert b. induction s as [|c s IH]; intros b; simpl; [done|].
  destruct (JS.is_space c) eqn:Hc.
  - intros [[Hsp Hb]%andb_true_iff H]%andb_true_iff.
    specialize (IH true H).
    destruct (JS.trimEnd s); [done|]. simpl in *. by rewrite Hc, Hsp, Hb, IH.
  - intros H. specialize (IH false H).
    destruct (JS.trimEnd s); simpl in *; by rewrite Hc.
Qed.

Lemma norm_collapsed s : collapsed true (norm s) = true.
Proof.
  unfold norm, JS.trim, JS.replace_spaces.
  apply collapsed_trimEnd. eapply collapsed_trimStart.
  apply replace_spaces_from_collapsed.
Qed.

Lemma collapsed_weaken s : collapsed true s = true → collapsed false s = true.
Proof.
  destruct s as [|c s]; simpl; [done|].
  destruct (JS.is_space c); [|done]. by rewrite andb_false_r.
Qed.

Lemma norm_lower s : JS.toLowerCase (norm s) = norm s.
Proof.
  unfold norm, JS.replace_spaces.
  by rewrite toLowerCase_trim, toLowerCase_replace_spaces_from, toLowerCase_idemp.
Qed.

Lemma norm_replace_spaces s : JS.replace_spaces (norm s) = norm s.
Proof.
  unfold JS.replace_spaces.
  apply replace_spaces_from_id, collapsed_weaken, norm_collapsed.
Qed.

Lemma norm_trim s : JS.trim (norm s) = norm s.
Proof. unfold norm. apply trim_idemp. Qed.

(** [norm] yields a fixed point of each of its three steps and hence of
    itself: normalising twice is normalising once. *)
Theorem norm_is_idempotent (s : option string) :
  JS.toLowerCase (norm s) = norm s
  ∧ JS.replace_spaces (norm s) = norm s
  ∧ JS.trim (norm s) = norm s
  ∧ norm (Some (norm s)) = norm s.
Proof.
  split_and!.
  - apply norm_lower.
  - apply norm_replace_spaces.
  - apply norm_trim.
  - unfold norm at 1. rewrite or_empty_Some.
    by rewrite norm_lower, norm_replace_spaces, norm_trim.
Qed.

(** ** The tokens of an address *)

Lemma split_space_cons s : ∃ w ws, JS.split_space s = w :: ws.
Proof.
  induction s as [|c s (w & ws & IH)]; simpl; [by eexists _, _|].
  destruct (ascii_dec c " "); [by eexists _, _|]. rewrite IH. by eexists _, _.
Qed.

Lemma concat_cons_cons (x y : string) l :
  String.concat " " (x :: y :: l) = x +:+ " " +:+ String.concat " " (y :: l).
Proof. reflexivity. Qed.

(** Joining the pieces of [split(' ')] with a space gives the string back. *)
Lemma concat_split_space s : String.concat " " (JS.split_space s) = s.
Proof.
  induction s as [|c s IH]; [done|]. simpl JS.split_space.
  destruct (split_space_cons s) as (w & ws & Hs). rewrite Hs in *.
  destruct (ascii_dec c " ") as [->|Hc].
  - by rewrite concat_cons_cons, IH.
  - destruct ws as [|w' ws].
    + simpl in *. by rewrite IH.
    + rewrite concat_cons_cons in *. by rewrite app_String, IH.
Qed.

Lemma trimStart_replace_spaces_from b s :
  JS.trimStart (JS.replace_spaces_from b s)
  = JS.replace_spaces_from false (JS.trimStart s).
Proof.
  revert b. induction s as [|c s IH]; intros b; simpl; [done|].
  destruct (JS.is_space c) eqn:Hc.
  - destruct b; simpl; apply IH.
  - simpl. by rewrite Hc.
Qed.

Lemma trimEnd_String c s :
  JS.trimEnd (String c s)
  = match JS.trimEnd s with
    | EmptyString => if JS.is_space c then "" else String c ""
    | r => String c r
    end.
Proof. reflexivity. Qed.

Lemma trimEnd_all_space s :
  JS.all_chars JS.is_space s = true → JS.trimEnd s = "".
Proof.
  intros H. pose proof (trimEnd_blank s) as Hb. rewrite H in Hb.
  by destruct (JS.trimEnd s).
Qed.

Lemma trimEnd_empty_all_space s :
  JS.trimEnd s = "" → JS.all_chars JS.is_space s = true.
Proof.
  intros H. pose proof (trimEnd_blank s) as Hb. rewrite H in Hb.
  simpl in Hb. by destruct (JS.all_chars JS.is_space s).
Qed.

Lemma trimEnd_replace_all_space b s :
  JS.all_chars JS.is_space s = true →
  JS.trimEnd (JS.replace_spaces_from b s) = "".
Proof.
  intros H. rewrite replace_spaces_from_all_space by done.
  destruct b; [done|]. by destruct (JS.truthy_str s).
Qed.

Lemma trimEnd_space_String X :
  JS.trimEnd (String " " X)
  = match JS.trimEnd X with EmptyString => "" | r => String " " r end.
Proof. rewrite trimEnd_String. by destruct (JS.trimEnd X). Qed.

Lemma replace_spaces_from_String b c s :
  JS.replace_spaces_from b (String c s)
  = if JS.is_space c
    then if b then JS.replace_spaces_from true s
         else String " " (JS.replace_spaces_from true s)
    else String c (JS.replace_spaces_from false s).
Proof. reflexivity. Qed.

Lemma trimEnd_replace_spaces_from b s :
  JS.trimEnd (JS.replace_spaces_from b (JS.trimEnd s))
  = JS.trimEnd (JS.replace_spaces_from b s).
Proof.
  revert b. induction s as [|c s IH]; intros b; [done|].
  rewrite trimEnd_String.
  destruct (JS.trimEnd s) as [|c' t] eqn:Ht.
  - apply trimEnd_empty_all_space in Ht.
    destruct (JS.is_space c) eqn:Hc.
    + symmetry. apply trimEnd_replace_all_space. simpl. by rewrite Hc, Ht.
    + simpl. rewrite Hc. rewrite !trimEnd_nonspace by done.
      by rewrite (trimEnd_replace_all_space false s Ht).
  - rewrite (replace_spaces_from_String b c (String c' t)),
      (replace_spaces_from_String b c s).
    destruct (JS.is_space c) eqn:Hc.
    + destruct b; [apply IH|].
      by rewrite !trimEnd_space_String, IH.
    + rewrite !trimEnd_nonspace by done. by rewrite IH.
Qed.

(** Trimming the argument first makes no difference to [norm]. *)
Lemma norm_trim_arg x : norm (Some (JS.trim x)) = norm (Some x).
Proof.
  unfold norm, JS.replace_spaces. rewrite !or_empty_Some, toLowerCase_trim.
  generalize (JS.toLowerCase x). intros y. unfold JS.trim.
  rewrite !trimStart_replace_spaces_from.
  rewrite (trimStart_trimEnd_nonspace (JS.trimStart y))
    by apply trimStart_starts_nonspace.
  apply trimEnd_replace_spaces_from.
Qed.

Lemma tokens_norm address :
  tokens (parseAddress address)
  = JS.filter_Boolean (JS.split_space (norm address)).
Proof.
  unfold parseAddress. cbn [tokens]. by rewrite norm_trim_arg, norm_or_empty.
Qed.

Lemma collapsed_true_String c s :
  collapsed true (String c s) = true →
  JS.is_space c = false ∧ c ≠ " "%char ∧ collapsed false s = true.
Proof.
  simpl. destruct (JS.is_space c) eqn:Hc.
  - by rewrite andb_false_r.
  - intros H. split_and!; [done| |done]. by intros ->.
Qed.

Lemma split_space_pieces_from b s :
  collapsed b s = true → JS.trimEnd s = s → s ≠ "" →
  forallb JS.truthy_str
    (if b then JS.split_space s else tail (JS.split_space s)) = true.
Proof.
  revert b. induction s as [|c s IH]; intros b Hcol Htrim Hne; [done|].
  simpl in Hcol. simpl JS.split_space.
  destruct (JS.is_space c) eqn:Hc.
  - apply andb_true_iff in Hcol as [[Hsp Hb]%andb_true_iff Hcol].
    destruct (ascii_dec c " ") as [->|]; [|done].
    apply negb_true_iff in Hb as ->. simpl.
    rewrite trimEnd_space_String in Htrim.
    destruct (JS.trimEnd s) as [|d t] eqn:Ht; [done|].
    injection Htrim as Htrim.
    apply (IH true); [done|done|by rewrite <- Htrim].
  - destruct (ascii_dec c " ") as [->|_]; [done|].
    rewrite trimEnd_nonspace in Htrim by done. injection Htrim as Htrim.
    destruct s as [|d s].
    + by destruct b.
    + specialize (IH false Hcol Htrim).
      destruct (JS.split_space (String d s)) as [|w ws]; destruct b; simpl in *;
        by apply IH.
Qed.

(** In a string in normal form that is not empty, no piece between two
    spaces is empty. *)
Lemma split_space_pieces s :
  collapsed true s = true → JS.trimEnd s = s → s ≠ "" →
  forallb JS.truthy_str (JS.split_space s) = true.
Proof. apply (split_space_pieces_from true). Qed.

Lemma filter_forallb {A} (f : A → bool) l :
  forallb f l = true → List.filter f l = l.
Proof.
  induction l as [|x l IH]; simpl; [done|].
  intros [Hx Hl]%andb_true_iff. by rewrite Hx, IH.
Qed.

Lemma all_space_replace_spaces_from b s :
  JS.all_chars JS.is_space (JS.replace_spaces_from b s)
  = JS.all_chars JS.is_space s.
Proof.
  revert b. induction s as [|c s IH]; intros b; simpl; [done|].
  destruct (JS.is_space c) eqn:Hc; simpl.
  - destruct b; simpl; by rewrite IH.
  - by rewrite Hc.
Qed.

Lemma norm_blank s :
  JS.truthy_str (norm s) = negb (JS.all_chars JS.is_space (JS.or_empty s)).
Proof.
  unfold norm, JS.replace_spaces.
  by rewrite trim_blank, all_space_replace_spaces_from, all_space_toLowerCase.
Qed.

Lemma norm_trimEnd s : JS.trimEnd (norm s) = norm s.
Proof. unfold norm, JS.trim. apply trimEnd_idemp. Qed.

(** The tokens are the words of the normalised address: joined by single
    spaces they spell it out, none of them is empty, and there is none at
    all exactly when the address is absent, empty or blank. *)
Theorem tokens_spell_the_normalised_address (address : option string) :
  String.concat " " (tokens (parseAddress address)) = norm address
  ∧ Forall (λ t, JS.truthy_str t = true) (tokens (parseAddress address))
  ∧ (tokens (parseAddress address) = []
     ↔ JS.all_chars JS.is_space (JS.or_empty address) = true).
Proof.
  rewrite tokens_norm. pose proof (norm_blank address) as Hblank.
  destruct (norm address) as [|c n] eqn:Hn.
  - simpl in Hblank. split_and!; [done|constructor|].
    split; [|done]. intros _. by destruct (JS.all_chars _ _).
  - assert (forallb JS.truthy_str (JS.split_space (String c n)) = true) as Hall.
    { apply split_space_pieces; [|by rewrite <- Hn, norm_trimEnd|done].
      rewrite <- Hn. apply norm_collapsed. }
    unfold JS.filter_Boolean. rewrite (filter_forallb _ _ Hall).
    split_and!.
    + apply concat_split_space.
    + apply Forall_forall. intros t Ht.
      rewrite forallb_forall in Hall. apply Hall. by apply list_elem_of_In.
    + simpl in Hblank. symmetry in Hblank.
      apply negb_true_iff in Hblank. rewrite Hblank.
      destruct (split_space_cons (String c n)) as (w & ws & ->).
      split; done.
Qed.

(** ** The house number among the tokens *)

(** When a house number is found, it is a non-empty run of digits, and house
    number, white space and street together are the trimmed address, the
    street holding no line terminator; otherwise the street is the trimmed
    address. *)
Theorem house_and_street_split_the_address (address : option string) :
  match house (parseAddress address) with
  | EmptyString =>
      street (parseAddress address) = JS.trim (JS.or_empty address)
  | String c d =>
      JS.all_chars JS.is_digit (String c d) = true
      ∧ JS.all_chars (λ x, negb (JS.is_line_terminator x))
          (street (parseAddress address)) = true
      ∧ ∃ w, JS.truthy_str w = true ∧ JS.all_chars JS.is_space w = true
             ∧ JS.trim (JS.or_empty address)
               = String c d +:+ w +:+ street (parseAddress address)
  end.
Proof.
  unfold parseAddress. cbn [house street].
  destruct (JS.match_house_rest (JS.trim (JS.or_empty address)))
    as [[d r]|] eqn:Hm; [|done].
  apply match_house_rest_Some in Hm as (w & Ha & Hd & Hdd & Hw & Hww & Hr).
  destruct d as [|c d]; [done|].
  split_and!; [done|done|]. by exists w.
Qed.

Lemma toLowerCase_digits d :
  JS.all_chars JS.is_digit d = true → JS.toLowerCase d = d.
Proof.
  induction d as [|c d IH]; simpl; [done|].
  intros [Hc Hd]%andb_true_iff. rewrite IH by done. f_equal.
  by destruct c as [[] [] [] [] [] [] [] []].
Qed.

Lemma digit_not_blank c : JS.is_digit c = true → c ≠ " "%char.
Proof. by intros H ->. Qed.

Lemma replace_spaces_from_word d X :
  JS.all_chars JS.is_digit d = true →
  JS.replace_spaces_from false (d +:+ X) = d +:+ JS.replace_spaces_from false X.
Proof.
  induction d as [|c d IH]; [by rewrite !app_empty|]. simpl JS.all_chars.
  intros [Hc Hd]%andb_true_iff. rewrite !app_String.
  rewrite replace_spaces_from_String, (digit_not_space c Hc). by rewrite IH.
Qed.

Lemma trimEnd_word d X :
  JS.all_chars JS.is_digit d = true →
  JS.trimEnd (d +:+ X) = d +:+ JS.trimEnd X.
Proof.
  induction d as [|c d IH]; [by rewrite !app_empty|]. simpl JS.all_chars.
  intros [Hc Hd]%andb_true_iff. rewrite !app_String.
  rewrite trimEnd_nonspace by (by apply digit_not_space). by rewrite IH.
Qed.

Lemma split_space_word d X :
  JS.all_chars JS.is_digit d = true →
  JS.split_space (d +:+ X)
  = match JS.split_space X with
    | w :: ws => (d +:+ w) :: ws
    | [] => [d]
    end.
Proof.
  induction d as [|c d IH]; simpl JS.all_chars.
  - intros _. destruct (split_space_cons X) as (w & ws & Hs).
    rewrite app_empty, Hs. reflexivity.
  - intros [Hc Hd]%andb_true_iff. rewrite app_String. simpl JS.split_space.
    destruct (ascii_dec c " ") as [->|_]; [done|].
    rewrite IH by done.
    destruct (split_space_cons X) as (w & ws & ->). done.
Qed.

(** The normal form of an address that starts with a house number starts
    with that number, as a word of its own. *)
Lemma norm_house d w r :
  JS.truthy_str d = true → JS.all_chars JS.is_digit d = true →
  JS.truthy_str w = true → JS.all_chars JS.is_space w = true →
  ∃ ws, JS.split_space (norm (Some (d +:+ w +:+ r))) = d :: ws.
Proof.
  intros Hd Hdd Hw Hww. unfold norm, JS.replace_spaces.
  rewrite or_empty_Some, toLowerCase_app, (toLowerCase_digits d Hdd).
  rewrite replace_spaces_from_word, replace_spaces_from_run by done.
  unfold JS.trim.
  assert (JS.trimStart (d +:+ " " +:+ JS.replace_spaces_from true (JS.toLowerCase r))
          = d +:+ " " +:+ JS.replace_spaces_from true (JS.toLowerCase r)) as ->.
  { destruct d as [|c d]; [done|]. simpl in Hdd.
    apply andb_true_iff in Hdd as [Hc _]. rewrite app_String. simpl.
    by rewrite (digit_not_space c Hc). }
  rewrite trimEnd_word by done.
  change (" " +:+ ?Z) with (String " " Z). rewrite trimEnd_space_String.
  rewrite split_space_word by done.
  destruct (JS.trimEnd _) as [|c t].
  - exists []. simpl. by rewrite append_empty_r.
  - change (JS.split_space (String " " (String c t)))
      with ("" :: JS.split_space (String c t)).
    eexists. by rewrite append_empty_r.
Qed.

(** A house number, when one is found, is also the first token. *)
Lemma house_is_first_token address c d :
  house (parseAddress address) = String c d →
  head (tokens (parseAddress address)) = Some (String c d).
Proof.
  unfold parseAddress. cbn [house tokens].
  destruct (JS.match_house_rest (JS.trim (JS.or_empty address)))
    as [[d' r]|] eqn:Hm; [|done].
  intros ->.
  apply match_house_rest_Some in Hm as (w & Ha & Hd & Hdd & Hw & Hww & Hr).
  rewrite Ha.
  destruct (norm_house (String c d) w r Hd Hdd Hw Hww) as (ws & ->).
  reflexivity.
Qed.

(** For a parsed address, a house-number match never comes alone: the house
    number is also the first token, which then matches too, so that a row
    matching the house number scores at least 55. *)
Theorem house_match_scores_at_least_55 (address : option string) cells rowText
    cityHint zipHint :
  housePts cells rowText (parseAddress address) = 50 →
  5 ≤ streetPts cells rowText (parseAddress address)
  ∧ 55 ≤ score (scoreRow cells rowText (parseAddress address) cityHint zipHint).
Proof.
  intros Hhouse.
  assert (5 ≤ streetPts cells rowText (parseAddress address)) as Hstreet.
  { unfold housePts in Hhouse. unfold streetPts, matching_tokens.
    destruct (JS.truthy_str (house (parseAddress address))) eqn:Hne; [|done].
    destruct (house (parseAddress address)) as [|c d] eqn:Hh; [done|].
    pose proof (house_is_first_token address c d Hh) as Hhd.
    destruct (tokens (parseAddress address)) as [|t ts]; [done|].
    injection Hhd as ->. simpl List.filter. unfold token_hits at 1.
    simpl JS.truthy_str.
    destruct (_ || _); [|done]. simpl. lia. }
  split; [done|].
  rewrite scoreRow_score, Hhouse.
  unfold zipPts, cityPts, emailPts, phonePts.
  repeat match goal with
         | |- context [if ?b then _ else _] => destruct b
         end; lia.
Qed.

Lemma house_match_scores_at_least_55_witness :
  5 ≤ streetPts denver_cells denver_text (parseAddress (Some "1462 22nd"))
  ∧ 55 ≤ score (scoreRow denver_cells denver_text (parseAddress (Some "1462 22nd"))
                  None None).
Proof.
  apply (house_match_scores_at_least_55 (Some "1462 22nd") denver_cells denver_text
           None None).
  vm_compute. reflexivity.
Defined.

(** ** A row that holds the address *)

(** White space around the address makes no difference to what is parsed. *)
Theorem parseAddress_ignores_outer_space (a : string) :
  parseAddress (Some (JS.trim a)) = parseAddress (Some a).
Proof. unfold parseAddress. by rewrite !or_empty_Some, trim_idemp. Qed.

Lemma startsWith_app s p : JS.startsWith s p = true ↔ ∃ v, s = p +:+ v.
Proof.
  revert s. induction p as [|a p IH]; intros s.
  - split; [intros _; by exists s|by destruct s].
  - destruct s as [|b s]; simpl.
    + split; [done|]. intros (v & Hv). by rewrite app_String in Hv.
    + destruct (ascii_dec a b) as [->|Hne].
      * rewrite IH. split; intros (v & Hv); exists v.
        -- by rewrite app_String, Hv.
        -- rewrite app_String in Hv. by injection Hv.
      * split; [done|]. intros (v & Hv). rewrite app_String in Hv.
        injection Hv as -> _. done.
Qed.

Lemma includes_app s p : JS.includes s p = true ↔ ∃ u v, s = u +:+ p +:+ v.
Proof.
  induction s as [|c s IH].
  - change (JS.includes "" p) with (JS.startsWith "" p || false).
    rewrite orb_false_r, startsWith_app. split.
    + intros (v & Hv). by exists "", v.
    + intros (u & v & Huv). symmetry in Huv.
      apply append_eq_empty in Huv as [-> Huv]. exists v. by rewrite Huv.
  - change (JS.includes (String c s) p)
      with (JS.startsWith (String c s) p || JS.includes s p).
    rewrite orb_true_iff, startsWith_app, IH. split.
    + intros [(v & Hv)|(u & v & ->)].
      * by exists "", v.
      * by exists (String c u), v.
    + intros (u & v & Huv). destruct u as [|x u].
      * left. by exists v.
      * right. rewrite app_String in Huv. injection Huv as -> ->. by exists u, v.
Qed.

Lemma includes_trans s m p :
  JS.includes s m = true → JS.includes m p = true → JS.includes s p = true.
Proof.
  rewrite !includes_app. intros (u & v & ->) (u' & v' & ->).
  exists (u +:+ u'), (v' +:+ v). by rewrite !append_assoc_str.
Qed.

(** Every piece of [split(' ')] is a piece of the string. *)
Lemma split_space_included s t :
  t ∈ JS.split_space s → JS.includes s t = true.
Proof.
  revert t. induction s as [|c s IH]; intros t.
  - simpl. intros ->%list_elem_of_singleton. reflexivity.
  - simpl JS.split_space. destruct (ascii_dec c " ") as [->|Hc].
    + intros [->|Ht]%elem_of_cons.
      * apply includes_empty.
      * by apply includes_String, IH.
    + destruct (split_space_cons s) as (w & ws & Hs). rewrite Hs in *.
      intros [->|Ht]%elem_of_cons.
      * assert (JS.includes s w = true) as Hw by (apply IH; left).
        apply includes_app. apply includes_app in Hw as (u & v & Huv).
        destruct u as [|x u].
        -- exists "", v. rewrite app_empty in *. by rewrite app_String, <- Huv.
        -- assert (JS.startsWith s w = true) as Hst.
           { clear -Hs. revert w ws Hs. induction s as [|d s IHs]; intros w ws.
             - intros [= <- <-]. reflexivity.
             - simpl. destruct (ascii_dec d " ") as [->|Hd].
               + intros [= <- <-]. reflexivity.
               + destruct (split_space_cons s) as (w' & ws' & Hs').
                 rewrite Hs'. intros [= <- <-]. simpl.
                 destruct (ascii_dec d d); [|done]. by eapply IHs. }
           apply startsWith_app in Hst as (v' & ->).
           exists "", v'. by rewrite app_empty, app_String.
      * apply includes_String, IH. by right.
Qed.

Lemma token_included address t :
  t ∈ tokens (parseAddress address) →
  JS.truthy_str t = true ∧ JS.includes (norm address) t = true.
Proof.
  rewrite tokens_norm. unfold JS.filter_Boolean.
  intros Ht%list_elem_of_In%filter_In. destruct Ht as [Ht Hne].
  split; [done|]. by apply split_space_included, list_elem_of_In.
Qed.

(** A row whose text or service location holds the whole normalised
    address matches every token, and the house number if there is one: it
    gets the full street-token score and the house score. *)
Theorem row_holding_the_address_gets_full_points (address : option string)
    cells rowText :
  JS.includes (norm rowText) (norm address)
  || JS.includes (norm (Some (JS.or_empty (serviceLocation cells)))) (norm address)
  = true →
  matching_tokens cells rowText (parseAddress address) = tokens (parseAddress address)
  ∧ streetPts cells rowText (parseAddress address)
    = 5 * Z.of_nat (length (tokens (parseAddress address)))
  ∧ (JS.truthy_str (house (parseAddress address)) = true →
     housePts cells rowText (parseAddress address) = 50).
Proof.
  intros Hrow.
  assert (∀ t, t ∈ tokens (parseAddress address) →
               token_hits (norm rowText)
                 (norm (Some (JS.or_empty (serviceLocation cells)))) t = true)
    as Hhits.
  { intros t (Hne & Hin)%token_included. unfold token_hits. rewrite Hne. simpl.
    apply orb_true_iff in Hrow as [Hrow|Hrow].
    - rewrite (includes_trans _ _ _ Hrow Hin). apply orb_true_r.
    - by rewrite (includes_trans _ _ _ Hrow Hin). }
  assert (matching_tokens cells rowText (parseAddress address)
          = tokens (parseAddress address)) as Hall.
  { unfold matching_tokens. apply filter_forallb, forallb_forall.
    intros t Ht. by apply Hhits, list_elem_of_In. }
  split_and!; [done|by unfold streetPts; rewrite Hall|].
  intros Hne. unfold housePts.
  destruct (house (parseAddress address)) as [|c d] eqn:Hh; [done|].
  pose proof (house_is_first_token address c d Hh) as Hhd.
  assert (String c d ∈ tokens (parseAddress address)) as Hin.
  { destruct (tokens (parseAddress address)); simplify_eq/=. left. }
  specialize (Hhits _ Hin). unfold token_hits in Hhits.
  by rewrite Hhits.
Qed.

Lemma row_holding_the_address_gets_full_points_witness :
  streetPts denver_cells denver_text (parseAddress (Some " 1462   22ND ")) = 10
  ∧ housePts denver_cells denver_text (parseAddress (Some " 1462   22ND ")) = 50.
Proof.
  destruct (row_holding_the_address_gets_full_points (Some " 1462   22ND ")
              denver_cells denver_text eq_refl) as (_ & Hs & Hh).
  split; [exact Hs|]. apply Hh. reflexivity.
Defined.
